(** * pyra-labs/logger: the deduplicating e-mail alert channel of [AppLogger]

    A shallow embedding of [src/logger.ts] (the [write] callback of the mail
    transport stream, the constructor's treatment of its options, the daily
    cache clear) and of [src/config.ts] (the [EMAIL_TO] transform of the
    environment schema), followed by the properties of the alert path. *)

From Stdlib Require Import ZArith String Ascii List Bool Lia Floats.
From stdpp Require Import base option list strings gmap fin_maps pretty.

Set Warnings "-register-all".

Local Open Scope string_scope.
Local Open Scope Z_scope.

(** ** Completions

    A JavaScript computation either returns or throws.  Only the exceptions
    that the modelled code can raise are listed. *)

Inductive js_error : Type :=
  | SyntaxError                       (* JSON.parse on text that is not JSON *)
  | TypeError                         (* property read on null, failed ToPrimitive *)
  | Error (msg : string)              (* [new Error(msg)] *)
  | ZodError (paths : list string).   (* schema issues, by field name *)

Inductive completion (A : Type) : Type :=
  | Normal (a : A)
  | Throw (e : js_error).
Arguments Normal {A} a.
Arguments Throw {A} e.

Definition completion_bind {A B} (f : A -> completion B) (c : completion A)
  : completion B :=
  match c with
  | Normal a => f a
  | Throw e => Throw e
  end.

#[global] Instance completion_ret : MRet completion := fun _ a => Normal a.
#[global] Instance completion_mbind : MBind completion :=
  fun _ _ f c => completion_bind f c.
#[global] Instance completion_fmap : FMap completion :=
  fun _ _ f c => completion_bind (fun a => Normal (f a)) c.

Definition throws {A} (c : completion A) : Prop := exists e, c = Throw e.

(** ** Values produced by [JSON.parse]

    A number is carried by its canonical [ToString] rendering, the only
    operation the program applies to a parsed number.  An object keeps its
    members in source order; on a repeated name the last member wins. *)

Inductive json : Type :=
  | JNull
  | JBool (b : bool)
  | JNumber (rendering : string)
  | JString (s : string)
  | JArray (items : list json)
  | JObject (members : list (string * json)).

(** [Get] of an own data property of an object built by [JSON.parse]. *)
Fixpoint own_property (members : list (string * json)) (name : string)
  : option json :=
  match members with
  | [] => None
  | (k, v) :: rest =>
      match own_property rest name with
      | Some later => Some later
      | None => if String.eqb k name then Some v else None
      end
  end.

(** [value.name] for a name that no built-in prototype defines ([level] and
    [message] are such names): [undefined] ([None]) on primitives and arrays,
    the own property on objects, a [TypeError] on [null]. *)
Definition get_property (value : json) (name : string)
  : completion (option json) :=
  match value with
  | JNull => Throw TypeError
  | JObject members => Normal (own_property members name)
  | _ => Normal None
  end.

(** [ToString] as a template literal applies it.  An array joins its items
    with commas, [null] items rendering empty.  An object renders through
    [Object.prototype.toString] unless an own member named [toString] shadows
    it; a member is never callable, so [OrdinaryToPrimitive] then finds no
    primitive and throws. *)
Fixpoint to_string (value : json) : completion string :=
  match value with
  | JNull => Normal "null"
  | JBool true => Normal "true"
  | JBool false => Normal "false"
  | JNumber rendering => Normal rendering
  | JString s => Normal s
  | JArray items =>
      (fix join (items : list json) : completion string :=
         match items with
         | [] => Normal EmptyString
         | item :: rest =>
             match (match item with
                    | JNull => Normal EmptyString
                    | _ => to_string item
                    end) with
             | Throw e => Throw e
             | Normal head =>
                 match rest with
                 | [] => Normal head
                 | _ =>
                     match join rest with
                     | Throw e => Throw e
                     | Normal tail => Normal (head ++ "," ++ tail)
                     end
                 end
             end
         end) items
  | JObject members =>
      match own_property members "toString" with
      | Some _ => Throw TypeError
      | None => Normal "[object Object]"
      end
  end.

(** [`${v}`] where [v] may be [undefined]. *)
Definition template_hole (v : option json) : completion string :=
  match v with
  | None => Normal "undefined"
  | Some value => to_string value
  end.

(** ** Data model *)

(** Modelled from the spec: the interface [ErrorCacheEntry], which
    [logger.ts] imports from [types/ErrorCacheEntry.interface.ts], a file
    that is not among the sources.  The spec gives an entry a count of
    occurrences and the epoch milliseconds of the last send, as does the
    literal [{ count: 0, lastSent: 0 }] in [logger.ts]. *)
Record ErrorCacheEntry : Type := {
  count : Z;
  lastSent : Z;
}.

#[global] Instance ErrorCacheEntry_eq_dec : EqDecision ErrorCacheEntry.
Proof. solve_decision. Defined.

(** The validated environment exported by [config.ts]. *)
Record Config : Type := {
  EMAIL_TO : list string;
  EMAIL_FROM : string;
  EMAIL_HOST : string;
  EMAIL_PORT : float;
  EMAIL_USER : string;
  EMAIL_PASSWORD : string;
}.

Record AppLoggerOptions : Type := {
  opt_name : string;
  opt_dailyErrorCacheTimeMs : option Z;
}.

(** The private fields of an [AppLogger]. *)
Record AppLogger : Type := {
  name : string;
  dailyErrorCache : gmap string ErrorCacheEntry;
  dailyErrorCacheTimeMs : Z;
}.

(** The argument of [mailTransporter.sendMail]. *)
Record mail : Type := {
  from : string;
  to : string;
  subject : string;
  text : string;
}.

(** ** The alert path of [logger.ts] *)

(** [new AppLogger(options)]: the window is 0 when the option is absent or
    negative; the cache starts empty.  The window and the clock are whole
    numbers of milliseconds.  An earlier revision of [logger.ts], also in
    the repository, requires the option and has no daily clear; its [write]
    is the same. *)
Definition AppLogger_new (options : AppLoggerOptions) : AppLogger :=
  {| name := opt_name options;
     dailyErrorCache := ∅;
     dailyErrorCacheTimeMs :=
       match opt_dailyErrorCacheTimeMs options with
       | None => 0
       | Some ms => if ms <? 0 then 0 else ms
       end |}.

(** The callback of [setInterval(..., 1000 * 60 * 60 * 24)]. *)
Definition clear (this : AppLogger) : AppLogger :=
  {| name := name this;
     dailyErrorCache := ∅;
     dailyErrorCacheTimeMs := dailyErrorCacheTimeMs this |}.

(** The period of that timer. *)
Definition clear_period_ms : Z := 1000 * 60 * 60 * 24.

(** [Math.round(ms / 1000 / 60)] for a whole number of milliseconds below
    2^53, where the quotient of the code rounds as the exact one does:
    halves round up. *)
Definition dailyErrorCacheTimeMinutes (this : AppLogger) : Z :=
  (dailyErrorCacheTimeMs this + 30000) / 60000.

(** [this.dailyErrorCache.get(cacheKey) || { count: 0, lastSent: 0 }] *)
Definition get_or_fresh (cache : gmap string ErrorCacheEntry) (cacheKey : string)
  : ErrorCacheEntry :=
  match cache !! cacheKey with
  | Some entry => entry
  | None => {| count := 0; lastSent := 0 |}
  end.

(** [cacheEntry.count++] *)
Definition increment (cacheEntry : ErrorCacheEntry) : ErrorCacheEntry :=
  {| count := count cacheEntry + 1; lastSent := lastSent cacheEntry |}.

(** The condition of the [if]: [now - cacheEntry.lastSent > this.dailyErrorCacheTimeMs]. *)
Definition shouldSend (this : AppLogger) (cacheEntry : ErrorCacheEntry) (now : Z)
  : bool :=
  now - lastSent cacheEntry >? dailyErrorCacheTimeMs this.

Definition emailSubject (this : AppLogger) (cacheEntry : ErrorCacheEntry) : string :=
  if dailyErrorCacheTimeMs this >? 0
  then name this ++ " Error (" ++ pretty (count cacheEntry)
       ++ " occurrences in past " ++ pretty (dailyErrorCacheTimeMinutes this)
       ++ " minutes)"
  else name this ++ " Error".

(** What one [write] leaves behind besides the cache: the letters handed to
    [sendMail], each with the fate of its promise, in loop order. *)
Record delivery : Type := {
  letter : mail;
  rejected : option js_error;
}.

(** A line of [console.error]. *)
Record console_line : Type := {
  label : string;
  detail : js_error;
}.

(** The [.catch] handler attached to every promise. *)
Definition on_rejected (error : js_error) : console_line :=
  {| label := "Failed to send error email: "; detail := error |}.

(** The letter the loop body builds for one recipient. *)
Definition letter_to (config : Config) (emailSubject message admin : string) : mail :=
  {| from := EMAIL_FROM config; to := admin;
     subject := emailSubject; text := message |}.

Definition attempts (sent : list delivery) : list mail := letter <$> sent.

Definition diagnostics (sent : list delivery) : list console_line :=
  omap (fun d => on_rejected <$> rejected d) sent.

(** What reaches a logger over time: error records written to the mail
    stream, and ticks of the daily timer. *)
Inductive event : Type :=
  | ErrorEvent (message : string) (now : Z)
  | DailyClear.

(** A batch of error records, each with its arrival time. *)
Definition error_events (batch : list (string * Z)) : list event :=
  (fun arrival => ErrorEvent arrival.1 arrival.2) <$> batch.

(** The runtime the dispatcher runs against: [JSON.parse], and the mail
    transport built by [nodemailer.createTransport], whose [sendMail] returns
    a promise that is later fulfilled ([None]) or rejected with a reason. *)
Class Runtime : Type := {
  JSON_parse : string -> completion json;
  Transport : Type;
  sendMail : Transport -> mail -> Transport * option js_error;
}.

Section Alert.

Context {runtime : Runtime}.

(** The default export of [config.ts]. *)
Variable config : Config.

(** [`${parsedMessage.level}: ${parsedMessage.message}`] *)
Definition cacheKey_of (message : string) : completion string :=
  parsedMessage ← JSON_parse message;
  level ← get_property parsedMessage "level";
  level_text ← template_hole level;
  msg ← get_property parsedMessage "message";
  msg_text ← template_hole msg;
  mret (level_text ++ ": " ++ msg_text).

(** [for (const admin of config.EMAIL_TO) { sendMail({...}).catch(...) }] *)
Fixpoint dispatch (transporter : Transport) (admins : list string)
    (emailSubject message : string) : Transport * list delivery :=
  match admins with
  | [] => (transporter, [])
  | admin :: rest =>
      let m := letter_to config emailSubject message admin in
      let '(transporter, fate) := sendMail transporter m in
      let '(transporter, sent) := dispatch transporter rest emailSubject message in
      (transporter, {| letter := m; rejected := fate |} :: sent)
  end.

(** The [write] of the stream behind [mailTransportInstance]; [now] is the
    value [Date.now()] returns during the call. *)
Definition write (this : AppLogger) (transporter : Transport)
    (message : string) (now : Z)
  : completion (AppLogger * Transport * list delivery) :=
  cacheKey ← cacheKey_of message;
  let cacheEntry := get_or_fresh (dailyErrorCache this) cacheKey in
  let cacheEntry := increment cacheEntry in
  let '(cacheEntry, transporter, sent) :=
    if shouldSend this cacheEntry now
    then
      let '(transporter, sent) :=
        dispatch transporter (EMAIL_TO config)
                 (emailSubject this cacheEntry) message in
      ({| count := 0; lastSent := now |}, transporter, sent)
    else (cacheEntry, transporter, [])
  in
  mret ({| name := name this;
           dailyErrorCache := <[cacheKey := cacheEntry]> (dailyErrorCache this);
           dailyErrorCacheTimeMs := dailyErrorCacheTimeMs this |},
        transporter, sent).

(** The event loop runs each callback to completion before the next one
    starts. *)
Definition handle (this : AppLogger) (transporter : Transport) (ev : event)
  : completion (AppLogger * Transport * list delivery) :=
  match ev with
  | ErrorEvent message now => write this transporter message now
  | DailyClear => mret (clear this, transporter, [])
  end.

Fixpoint run (this : AppLogger) (transporter : Transport) (events : list event)
  : completion (AppLogger * Transport * list delivery) :=
  match events with
  | [] => mret (this, transporter, [])
  | ev :: later =>
      '(this, transporter, sent) ← handle this transporter ev;
      '(this, transporter, sent_later) ← run this transporter later;
      mret (this, transporter, (sent ++ sent_later)%list)
  end.

End Alert.


(** ** [config.ts]: the environment schema *)

(** Strings are read as sequences of code units below 256.  In that range the
    class [\s], and what [trim] strips, is TAB, LF, VT, FF, CR, SPACE and
    NO-BREAK SPACE. *)
Definition is_whitespace (c : ascii) : bool :=
  match nat_of_ascii c with
  | 9 | 10 | 11 | 12 | 13 | 32 | 160 => true
  | _ => false
  end%nat.

(** [str.split(',')] *)
Fixpoint split_comma (str : string) : list string :=
  match str with
  | EmptyString => [EmptyString]
  | String c rest =>
      if Ascii.eqb c "," then EmptyString :: split_comma rest
      else match split_comma rest with
           | piece :: pieces => String c piece :: pieces
           | [] => [String c EmptyString]   (* a split is never empty *)
           end
  end.

Fixpoint trimStart (s : string) : string :=
  match s with
  | EmptyString => EmptyString
  | String c rest => if is_whitespace c then trimStart rest else s
  end.

Fixpoint trimEnd (s : string) : string :=
  match s with
  | EmptyString => EmptyString
  | String c rest =>
      match trimEnd rest with
      | EmptyString => if is_whitespace c then EmptyString else String c EmptyString
      | kept => String c kept
      end
  end.

(** [email.trim()] *)
Definition trim (s : string) : string := trimEnd (trimStart s).

(** Regular expressions without captures, matched by derivatives. *)
Inductive regex : Type :=
  | Void
  | Eps
  | Class (accepts : ascii -> bool)
  | Seq (r1 r2 : regex)
  | Alt (r1 r2 : regex)
  | Star (r : regex).

Definition Plus (r : regex) : regex := Seq r (Star r).

Fixpoint nullable (r : regex) : bool :=
  match r with
  | Void => false
  | Eps => true
  | Class _ => false
  | Seq r1 r2 => nullable r1 && nullable r2
  | Alt r1 r2 => nullable r1 || nullable r2
  | Star _ => true
  end.

Fixpoint deriv (c : ascii) (r : regex) : regex :=
  match r with
  | Void => Void
  | Eps => Void
  | Class accepts => if accepts c then Eps else Void
  | Seq r1 r2 =>
      if nullable r1 then Alt (Seq (deriv c r1) r2) (deriv c r2)
      else Seq (deriv c r1) r2
  | Alt r1 r2 => Alt (deriv c r1) (deriv c r2)
  | Star r1 => Seq (deriv c r1) (Star r1)
  end.

(** [/^r$/.test(s)] *)
Fixpoint test (r : regex) (s : string) : bool :=
  match s with
  | EmptyString => nullable r
  | String c rest => test (deriv c r) rest
  end.

(** Membership in the language of a regular expression, independent of the
    matcher. *)
Inductive matches : regex -> string -> Prop :=
  | matches_eps : matches Eps EmptyString
  | matches_class accepts c :
      accepts c = true -> matches (Class accepts) (String c EmptyString)
  | matches_seq r1 r2 s1 s2 :
      matches r1 s1 -> matches r2 s2 -> matches (Seq r1 r2) (s1 ++ s2)
  | matches_alt_l r1 r2 s : matches r1 s -> matches (Alt r1 r2) s
  | matches_alt_r r1 r2 s : matches r2 s -> matches (Alt r1 r2) s
  | matches_star_nil r : matches (Star r) EmptyString
  | matches_star_cons r s1 s2 :
      matches r s1 -> matches (Star r) s2 -> matches (Star r) (s1 ++ s2).

(** [[^\s@]] *)
Definition not_space_or_at (c : ascii) : bool :=
  negb (is_whitespace c || Ascii.eqb c "@").

(** [/^[^\s@]+@[^\s@]+\.[^\s@]+$/] *)
Definition email_regex : regex :=
  Seq (Plus (Class not_space_or_at))
      (Seq (Class (Ascii.eqb "@"))
           (Seq (Plus (Class not_space_or_at))
                (Seq (Class (Ascii.eqb "."))
                     (Plus (Class not_space_or_at))))).

Definition try_catch {A} (body : completion A) (handler : js_error -> completion A)
  : completion A :=
  match body with
  | Normal a => Normal a
  | Throw e => handler e
  end.

(** The [transform] of [EMAIL_TO]. *)
Definition EMAIL_TO_transform (str : string) : completion (list string) :=
  try_catch
    (let emails := trim <$> split_comma str in
     if negb (forallb (test email_regex) emails) then Throw (Error EmptyString)
     else Normal emails)
    (fun _ => Throw (Error
       "Invalid email list format: must be comma-separated email addresses")).

(** The shape the pattern describes, stated without the matcher. *)
Definition every_char (p : ascii -> bool) (s : string) : Prop :=
  forall c, In c (list_ascii_of_string s) -> p c = true.

Definition local_at_domain_dot_tld (s : string) : Prop :=
  exists u v w : string,
    s = u ++ "@" ++ v ++ "." ++ w
    /\ u <> EmptyString /\ v <> EmptyString /\ w <> EmptyString
    /\ every_char not_space_or_at u
    /\ every_char not_space_or_at v
    /\ every_char not_space_or_at w.

Section Schema.

(** The validators of the schema library that the file relies on:
    [z.string().email()] and the coercion [Number(value)] of
    [z.coerce.number()]. *)
Variable zod_email : string -> bool.
Variable Number_of : option string -> float.

(** A field validator yields the parsed value, or records an issue. *)
Definition z_string (value : option string) : option string := value.

Definition z_string_email (value : option string) : option string :=
  match value with
  | Some s => if zod_email s then Some s else None
  | None => None
  end.

Definition z_coerce_number_min0 (value : option string) : option float :=
  let n := Number_of value in
  if PrimFloat.is_nan n then None
  else if PrimFloat.leb 0%float n then Some n
  else None.

Definition issue {A} (path : string) (parsed : option A) : list string :=
  match parsed with
  | Some _ => []
  | None => [path]
  end.

(** [envSchema.parse({ EMAIL_TO: process.env.EMAIL_TO, ... })].  The fields
    are visited in schema order; the transform runs when [EMAIL_TO] is a
    string, and what it throws leaves [parse] at once. *)
Definition envSchema_parse (env : gmap string string) : completion Config :=
  to ← match z_string (env !! "EMAIL_TO") with
       | Some str => Some <$> EMAIL_TO_transform str
       | None => Normal None
       end;
  let from := z_string_email (env !! "EMAIL_FROM") in
  let host := z_string (env !! "EMAIL_HOST") in
  let port := z_coerce_number_min0 (env !! "EMAIL_PORT") in
  let user := z_string_email (env !! "EMAIL_USER") in
  let password := z_string (env !! "EMAIL_PASSWORD") in
  match to, from, host, port, user, password with
  | Some to, Some from, Some host, Some port, Some user, Some password =>
      Normal {| EMAIL_TO := to; EMAIL_FROM := from; EMAIL_HOST := host;
                EMAIL_PORT := port; EMAIL_USER := user;
                EMAIL_PASSWORD := password |}
  | _, _, _, _, _, _ =>
      Throw (ZodError (issue "EMAIL_TO" to ++ issue "EMAIL_FROM" from
                       ++ issue "EMAIL_HOST" host ++ issue "EMAIL_PORT" port
                       ++ issue "EMAIL_USER" user
                       ++ issue "EMAIL_PASSWORD" password)%list)
  end.

(** Start of a process that uses the package: [logger.ts] imports
    [config.ts], whose body is the parse above, so a logger can be
    constructed only once the parse has returned. *)
Definition startup (env : gmap string string) (options : AppLoggerOptions)
  : completion (Config * AppLogger) :=
  config ← envSchema_parse env;
  mret (config, AppLogger_new options).

End Schema.

(** ** A deployment used in the examples *)

(** Record texts are written with apostrophes standing for the quotation
    marks of JSON. *)
Fixpoint quoted (s : string) : string :=
  match s with
  | EmptyString => EmptyString
  | String c rest =>
      String (if Ascii.eqb c "'" then "034"%char else c) (quoted rest)
  end.

Definition disk_full : string :=
  quoted "{'level':'error','message':'disk full','timestamp':'2024-05-01 10:00:00'}".

Definition bare_record : string :=
  quoted "{'timestamp':'2024-05-01 10:00:00'}".

Definition plain_text : string := "disk full".

(** [JSON.parse] on the three texts above; the examples pass it no other. *)
Definition JSON_parse_examples (message : string) : completion json :=
  if String.eqb message disk_full then
    Normal (JObject [("level", JString "error");
                     ("message", JString "disk full");
                     ("timestamp", JString "2024-05-01 10:00:00")])
  else if String.eqb message bare_record then
    Normal (JObject [("timestamp", JString "2024-05-01 10:00:00")])
  else Throw SyntaxError.

(** A transport whose every promise is fulfilled, and one that rejects the
    letters addressed to [dev@example.com]. *)
Definition delivers_all : Runtime :=
  {| JSON_parse := JSON_parse_examples;
     Transport := unit;
     sendMail := fun transporter m => (tt, None) |}.

Definition refuses_dev : Runtime :=
  {| JSON_parse := JSON_parse_examples;
     Transport := unit;
     sendMail := fun transporter m =>
       (tt, if String.eqb (to m) "dev@example.com"
            then Some (Error "ECONNREFUSED") else None) |}.

Definition ops_config : Config :=
  {| EMAIL_TO := ["ops@example.com"; "dev@example.com"; "oncall@example.com"];
     EMAIL_FROM := "alerts@example.com";
     EMAIL_HOST := "smtp.example.com";
     EMAIL_PORT := 587%float;
     EMAIL_USER := "alerts@example.com";
     EMAIL_PASSWORD := "secret" |}.

Definition solo_config : Config :=
  {| EMAIL_TO := ["ops@example.com"];
     EMAIL_FROM := "alerts@example.com";
     EMAIL_HOST := "smtp.example.com";
     EMAIL_PORT := 587%float;
     EMAIL_USER := "alerts@example.com";
     EMAIL_PASSWORD := "secret" |}.

(** A logger with a one-minute window, one without batching. *)
Definition minute_logger : AppLogger :=
  AppLogger_new {| opt_name := "svc"; opt_dailyErrorCacheTimeMs := Some 60000 |}.

Definition eager_logger : AppLogger :=
  AppLogger_new {| opt_name := "svc"; opt_dailyErrorCacheTimeMs := None |}.

(** 2024-05-01T10:00:00Z in epoch milliseconds. *)
Definition t0 : Z := 1714557600000.

(** The logger without batching right after it has alerted on [disk_full]
    at [t0]. *)
Definition eager_alerted_logger : AppLogger :=
  {| name := "svc";
     dailyErrorCache := {[ "error: disk full" := {| count := 0; lastSent := t0 |} ]};
     dailyErrorCacheTimeMs := 0 |}.

(** The one-minute logger right after it has alerted on [disk_full] at [t0]. *)
Definition alerted_logger : AppLogger :=
  {| name := "svc";
     dailyErrorCache := {[ "error: disk full" := {| count := 0; lastSent := t0 |} ]};
     dailyErrorCacheTimeMs := 60000 |}.

Definition ops_env : gmap string string :=
  list_to_map [("EMAIL_TO", "ops@example.com, dev@example.com");
               ("EMAIL_FROM", "alerts@example.com");
               ("EMAIL_HOST", "smtp.example.com");
               ("EMAIL_PORT", "587");
               ("EMAIL_USER", "alerts@example.com");
               ("EMAIL_PASSWORD", "secret")].

(** The schema library's validators on the values of [ops_env]; the examples
    pass them no other. *)
Definition zod_email_examples (s : string) : bool :=
  String.eqb s "alerts@example.com".
Definition Number_of_examples (value : option string) : float :=
  match value with
  | Some "587" => 587%float
  | _ => PrimFloat.nan
  end.

(** ** The administrative notice of [logger.ts] *)

Section Notice.

Context {runtime : Runtime}.
Variable config : Config.

(** What [Promise.all] rejects with, given the fates of the promises it
    waits for: the reason of the one that is rejected first in time, if
    any.  And [`${error}`], the rendering of such a reason. *)
Variable first_rejected : list delivery -> option js_error.
Variable error_text : js_error -> string.


End Notice.

(** More records for the examples: the disk alert a second later, a second
    alert, the JSON text [null], and a record without a message. *)
Definition disk_full_later : string :=
  quoted "{'level':'error','message':'disk full','timestamp':'2024-05-01 10:00:01'}".

Definition db_down : string :=
  quoted "{'level':'error','message':'db down','timestamp':'2024-05-01 10:00:00'}".

Definition null_text : string := "null".

Definition level_only : string := quoted "{'level':'error'}".

(** [JSON.parse] on these texts and on [disk_full]; the examples that use
    it pass it no other. *)
Definition JSON_parse_more (message : string) : completion json :=
  if String.eqb message disk_full then
    Normal (JObject [("level", JString "error");
                     ("message", JString "disk full");
                     ("timestamp", JString "2024-05-01 10:00:00")])
  else if String.eqb message disk_full_later then
    Normal (JObject [("level", JString "error");
                     ("message", JString "disk full");
                     ("timestamp", JString "2024-05-01 10:00:01")])
  else if String.eqb message db_down then
    Normal (JObject [("level", JString "error");
                     ("message", JString "db down");
                     ("timestamp", JString "2024-05-01 10:00:00")])
  else if String.eqb message null_text then Normal JNull
  else if String.eqb message level_only then
    Normal (JObject [("level", JString "error")])
  else Throw SyntaxError.

Definition delivers_more : Runtime :=
  {| JSON_parse := JSON_parse_more;
     Transport := unit;
     sendMail := fun transporter m => (tt, None) |}.

(** * Properties of the constructor *)

Lemma AppLogger_new_window options :
  dailyErrorCacheTimeMs (AppLogger_new options)
  = match opt_dailyErrorCacheTimeMs options with
    | Some ms => Z.max 0 ms
    | None => 0
    end.
Proof.
  unfold AppLogger_new. simpl.
  destruct (opt_dailyErrorCacheTimeMs options) as [ms|]; [|done].
  destruct (Z.ltb_spec ms 0); lia.
Qed.

Lemma AppLogger_new_empty options : dailyErrorCache (AppLogger_new options) = ∅.
Proof. reflexivity. Qed.

Lemma clear_period_is_a_day : clear_period_ms = 86400000.
Proof. reflexivity. Qed.

(** * Properties of the alert path *)

Section AlertFacts.

Context {runtime : Runtime}.
Variable config : Config.

Lemma dispatch_attempts tr admins subj message :
  attempts (dispatch config tr admins subj message).2
  = letter_to config subj message <$> admins.
Proof.
  revert tr. induction admins as [|admin rest IH]; intros tr; simpl; [done|].
  destruct (sendMail tr _) as [tr1 fate].
  specialize (IH tr1).
  destruct (dispatch config tr1 rest subj message) as [tr2 sent].
  simpl in *. unfold attempts in *. simpl. by rewrite IH.
Qed.

Lemma dispatch_fates tr admins subj message :
  Forall (fun d => exists tr0, rejected d = (sendMail tr0 (letter d)).2)
         (dispatch config tr admins subj message).2.
Proof.
  revert tr. induction admins as [|admin rest IH]; intros tr; simpl.
  { constructor. }
  destruct (sendMail tr _) as [tr1 fate] eqn:Hfate.
  specialize (IH tr1).
  destruct (dispatch config tr1 rest subj message) as [tr2 sent].
  simpl in *. constructor; [|done].
  exists tr. simpl. by rewrite Hfate.
Qed.

Lemma shouldSend_spec this entry now :
  shouldSend this entry now = true
  <-> now - lastSent entry > dailyErrorCacheTimeMs this.
Proof. unfold shouldSend. rewrite Z.gtb_gt. lia. Qed.

Lemma shouldSend_false this entry now :
  shouldSend this entry now = false
  <-> now - lastSent entry <= dailyErrorCacheTimeMs this.
Proof. unfold shouldSend. rewrite Z.gtb_ltb, Z.ltb_ge. lia. Qed.

(** [write] on a record whose signature is [s]. *)
Lemma write_signed this tr message now s :
  cacheKey_of message = Normal s ->
  write config this tr message now =
    let counted := increment (get_or_fresh (dailyErrorCache this) s) in
    if shouldSend this counted now
    then Normal ({| name := name this;
                    dailyErrorCache :=
                      <[s := {| count := 0; lastSent := now |}]>
                        (dailyErrorCache this);
                    dailyErrorCacheTimeMs := dailyErrorCacheTimeMs this |},
                 (dispatch config tr (EMAIL_TO config)
                    (emailSubject this counted) message).1,
                 (dispatch config tr (EMAIL_TO config)
                    (emailSubject this counted) message).2)
    else Normal ({| name := name this;
                    dailyErrorCache := <[s := counted]> (dailyErrorCache this);
                    dailyErrorCacheTimeMs := dailyErrorCacheTimeMs this |},
                 tr, []).
Proof.
  intros Hkey. unfold write. rewrite Hkey. simpl.
  destruct (shouldSend _ _ _); [|done].
  by destruct (dispatch _ _ _ _).
Qed.

Lemma run_cons this tr ev later :
  run config this tr (ev :: later)
  = '(this', tr', sent) ← handle config this tr ev;
    '(this'', tr'', sent_later) ← run config this' tr' later;
    mret (this'', tr'', (sent ++ sent_later)%list).
Proof. reflexivity. Qed.

Lemma run_app this tr earlier later :
  run config this tr (earlier ++ later)
  = '(this', tr', sent) ← run config this tr earlier;
    '(this'', tr'', sent_later) ← run config this' tr' later;
    mret (this'', tr'', (sent ++ sent_later)%list).
Proof.
  revert this tr. induction earlier as [|ev earlier IH]; intros this tr.
  - simpl. by destruct (run config this tr later) as [[[? ?] ?]|].
  - rewrite <- app_comm_cons, !run_cons.
    destruct (handle config this tr ev) as [[[this1 tr1] sent1]|]; [|done].
    simpl. rewrite IH.
    destruct (run config this1 tr1 earlier) as [[[this2 tr2] sent2]|]; [|done].
    simpl.
    destruct (run config this2 tr2 later) as [[[this3 tr3] sent3]|]; [|done].
    simpl. by rewrite app_assoc.
Qed.

(** Events that arrive within the window of the last send are counted and
    nothing else happens. *)
Lemma run_absorbed absorbed : forall this tr s,
  Forall (fun arrival =>
            cacheKey_of arrival.1 = Normal s
            /\ arrival.2 - lastSent (get_or_fresh (dailyErrorCache this) s)
               <= dailyErrorCacheTimeMs this) absorbed ->
  exists this',
    run config this tr (error_events absorbed) = Normal (this', tr, [])
    /\ name this' = name this
    /\ dailyErrorCacheTimeMs this' = dailyErrorCacheTimeMs this
    /\ get_or_fresh (dailyErrorCache this') s
       = {| count := count (get_or_fresh (dailyErrorCache this) s)
                     + Z.of_nat (length absorbed);
            lastSent := lastSent (get_or_fresh (dailyErrorCache this) s) |}.
Proof.
  induction absorbed as [|[message now] absorbed IH]; intros this tr s Hall.
  - exists this. simpl. repeat split; try done.
    destruct (get_or_fresh _ _) as [c l]. simpl. f_equal. lia.
  - apply Forall_cons in Hall as [[Hkey Hin] Hall]. simpl in Hkey, Hin.
    unfold error_events. rewrite fmap_cons, run_cons. simpl handle.
    rewrite (write_signed _ _ _ _ _ Hkey). cbv zeta.
    set (entry := get_or_fresh (dailyErrorCache this) s) in *.
    assert (Hdec : shouldSend this (increment entry) now = false)
      by (by apply shouldSend_false).
    rewrite Hdec. simpl.
    set (this1 := {| name := name this;
                     dailyErrorCache := <[s := increment entry]> (dailyErrorCache this);
                     dailyErrorCacheTimeMs := dailyErrorCacheTimeMs this |}).
    assert (Hentry1 : get_or_fresh (dailyErrorCache this1) s = increment entry).
    { unfold get_or_fresh, this1. simpl. by rewrite lookup_insert_eq. }
    destruct (IH this1 tr s) as (this' & Hrun & Hname & Hwin & Hentry).
    { rewrite Hentry1. exact Hall. }
    exists this'. fold (error_events absorbed). rewrite Hrun. simpl.
    repeat split; try done.
    rewrite Hentry, Hentry1. simpl. f_equal. lia.
Qed.

Lemma dispatch_length tr admins subj message :
  length (dispatch config tr admins subj message).2 = length admins.
Proof.
  rewrite <- (length_fmap letter). fold (attempts (dispatch config tr admins subj message).2).
  rewrite dispatch_attempts. apply length_fmap.
Qed.

(** X3.  Among records of one signature that arrive within a span shorter
    than the window, at most one alerts: the run sends at most one letter
    per recipient. *)
Lemma run_within_span_sends_once batch : forall this tr s,
  Forall (fun arrival => cacheKey_of arrival.1 = Normal s) batch ->
  (forall a b, a ∈ batch -> b ∈ batch -> b.2 - a.2 < dailyErrorCacheTimeMs this) ->
  exists this' tr' sent,
    run config this tr (error_events batch) = Normal (this', tr', sent)
    /\ dailyErrorCacheTimeMs this' = dailyErrorCacheTimeMs this
    /\ (length sent <= length (EMAIL_TO config))%nat.
Proof.
  induction batch as [|[message now] batch IH]; intros this tr s Hkeys Hspan.
  - eexists _, _, _. split; [reflexivity|]. split; [done|]. simpl. lia.
  - apply Forall_cons in Hkeys as [Hkey Hkeys]. simpl in Hkey.
    unfold error_events. rewrite fmap_cons, run_cons. simpl handle.
    fold (error_events batch).
    rewrite (write_signed _ _ _ _ _ Hkey). cbv zeta.
    destruct (shouldSend _ _ _) eqn:Hdec; simpl.
    + set (this1 := {| name := name this;
                       dailyErrorCache := <[s := {| count := 0; lastSent := now |}]>
                                            (dailyErrorCache this);
                       dailyErrorCacheTimeMs := dailyErrorCacheTimeMs this |}).
      set (tr1 := (dispatch config tr _ _ _).1).
      set (sent1 := (dispatch config tr _ _ _).2).
      destruct (run_absorbed batch this1 tr1 s)
        as (this' & Hrun & _ & Hwin & _).
      { apply Forall_forall. intros b Hb. split.
        - rewrite Forall_forall in Hkeys. by apply Hkeys.
        - unfold get_or_fresh, this1. simpl. rewrite lookup_insert_eq. simpl.
          assert (b.2 - now < dailyErrorCacheTimeMs this); [|lia].
          apply (Hspan (message, now) b); [left|by right]. }
      rewrite Hrun. simpl. eexists _, _, _. split; [reflexivity|].
      split; [done|]. rewrite app_nil_r. unfold sent1.
      by rewrite dispatch_length.
    + set (this1 := {| name := name this;
                       dailyErrorCache := _;
                       dailyErrorCacheTimeMs := dailyErrorCacheTimeMs this |}).
      destruct (IH this1 tr s Hkeys) as (this' & tr' & sent & Hrun & Hwin & Hlen).
      { intros a b Ha Hb. apply Hspan; by right. }
      rewrite Hrun. simpl. eexists _, _, _. split; [reflexivity|]. done.
Qed.

(** C1.  An error record with signature [s] arriving at [now] is handled
    against the stored entry for [s], or a fresh [{count: 0, lastSent: 0}]
    when none is stored; the entry is counted once more, its count growing
    by one, and stays stored; letters go out exactly when [now - lastSent]
    is strictly greater than the window, their subject built from the
    count plus one, and an arrival with [now - lastSent] equal to the
    window sends nothing. *)
Theorem C1_dedup_step this tr message now s :
  cacheKey_of message = Normal s ->
  let entry := get_or_fresh (dailyErrorCache this) s in
  let elapsed := now - lastSent entry in
  (forall stored, dailyErrorCache this !! s = Some stored -> entry = stored)
  /\ (dailyErrorCache this !! s = None -> entry = {| count := 0; lastSent := 0 |})
  /\ increment entry = {| count := count entry + 1; lastSent := lastSent entry |}
  /\ (shouldSend this (increment entry) now = true
      <-> elapsed > dailyErrorCacheTimeMs this)
  /\ exists this' tr' sent,
       write config this tr message now = Normal (this', tr', sent)
       /\ is_Some (dailyErrorCache this' !! s)
       /\ (elapsed > dailyErrorCacheTimeMs this ->
             attempts sent
             = letter_to config
                 (emailSubject this {| count := count entry + 1;
                                       lastSent := lastSent entry |})
                 message <$> EMAIL_TO config
             /\ (dailyErrorCacheTimeMs this > 0 ->
                 Forall (fun m =>
                           subject m
                           = name this ++ " Error (" ++ pretty (count entry + 1)
                             ++ " occurrences in past "
                             ++ pretty (dailyErrorCacheTimeMinutes this)
                             ++ " minutes)")
                        (attempts sent))
             /\ dailyErrorCache this' !! s
                = Some {| count := 0; lastSent := now |})
       /\ (elapsed <= dailyErrorCacheTimeMs this ->
             sent = []
             /\ dailyErrorCache this' !! s
                = Some {| count := count entry + 1; lastSent := lastSent entry |})
       /\ (elapsed = dailyErrorCacheTimeMs this -> sent = []).
Proof.
  intros Hkey entry elapsed. split; [|split; [|split; [|split]]].
  - intros stored Hstored. unfold entry, get_or_fresh. by rewrite Hstored.
  - intros Hnone. unfold entry, get_or_fresh. by rewrite Hnone.
  - reflexivity.
  - apply shouldSend_spec.
  - rewrite (write_signed _ _ _ _ _ Hkey). cbv zeta. fold entry.
    destruct (shouldSend this (increment entry) now) eqn:Hdec.
    + apply shouldSend_spec in Hdec. simpl in Hdec. fold elapsed in Hdec.
      eexists _, _, _. split; [reflexivity|].
      split; [simpl; rewrite lookup_insert_eq; eauto|].
      split; [|split]; [|lia|lia].
      intros _. rewrite dispatch_attempts.
      split; [reflexivity|]. split; [|simpl; apply lookup_insert_eq].
      intros Hwin. apply Forall_fmap, Forall_true. intros admin. simpl.
      unfold emailSubject.
      replace (dailyErrorCacheTimeMs this >? 0) with true
        by (symmetry; apply Z.gtb_gt; lia).
      reflexivity.
    + apply shouldSend_false in Hdec. simpl in Hdec. fold elapsed in Hdec.
      eexists _, _, _. split; [reflexivity|].
      split; [simpl; rewrite lookup_insert_eq; eauto|].
      split; [|split]; [lia | | done].
      intros _. split; [done|]. simpl. apply lookup_insert_eq.
Qed.

(** C2, amended.  Take an entry whose count is 0, as a send leaves it, a
    window above 0, and a batch of records of that signature of which all
    but the last arrive within the window of the last send and the last
    one later than that.  The batch sends exactly one letter per
    recipient, on its last record, and the subject reports as many
    occurrences as the batch has records. *)
Theorem C2_batch_report this tr absorbed message now s :
  let entry := get_or_fresh (dailyErrorCache this) s in
  let batch := error_events (absorbed ++ [(message, now)]) in
  dailyErrorCacheTimeMs this > 0 ->
  count entry = 0 ->
  Forall (fun arrival =>
            cacheKey_of arrival.1 = Normal s
            /\ arrival.2 - lastSent entry <= dailyErrorCacheTimeMs this)
         absorbed ->
  cacheKey_of message = Normal s ->
  now - lastSent entry > dailyErrorCacheTimeMs this ->
  exists this' tr' sent,
    run config this tr batch = Normal (this', tr', sent)
    /\ attempts sent
       = letter_to config
           (name this ++ " Error (" ++ pretty (Z.of_nat (length batch))
            ++ " occurrences in past " ++ pretty (dailyErrorCacheTimeMinutes this)
            ++ " minutes)")
           message <$> EMAIL_TO config
    /\ dailyErrorCache this' !! s = Some {| count := 0; lastSent := now |}.
Proof.
  intros entry batch Hwin Hcount Hall Hkey Hlate.
  destruct (run_absorbed absorbed this tr s Hall)
    as (this1 & Hrun & Hname & Hwin1 & Hentry).
  fold entry in Hentry. unfold batch, error_events.
  rewrite fmap_app, run_app. fold (error_events absorbed). rewrite Hrun.
  simpl. rewrite (write_signed _ _ _ _ _ Hkey). cbv zeta. rewrite Hentry.
  assert (Hdec : shouldSend this1
            (increment {| count := count entry + Z.of_nat (length absorbed);
                          lastSent := lastSent entry |}) now = true).
  { apply shouldSend_spec. simpl. lia. }
  rewrite Hdec. simpl. eexists _, _, _. split; [reflexivity|]. split.
  - rewrite app_nil_r, dispatch_attempts. f_equal.
    unfold emailSubject, dailyErrorCacheTimeMinutes. rewrite Hwin1, Hname.
    replace (dailyErrorCacheTimeMs this >? 0) with true
      by (symmetry; apply Z.gtb_gt; lia).
    simpl. unfold error_events. rewrite length_app, length_fmap. simpl.
    replace (count entry + Z.of_nat (length absorbed) + 1)
      with (Z.of_nat (length absorbed + 1)) by lia.
    reflexivity.
  - apply lookup_insert_eq.
Qed.

(** C3.  When the decision is to send, the same single step of the event
    loop that decides also leaves the entry of [s] at
    [{count: 0, lastSent: now}]; whatever event follows is handled from
    that state. *)
Theorem C3_send_resets_entry this tr message now s :
  cacheKey_of message = Normal s ->
  shouldSend this (increment (get_or_fresh (dailyErrorCache this) s)) now = true ->
  exists this' tr' sent,
    handle config this tr (ErrorEvent message now) = Normal (this', tr', sent)
    /\ dailyErrorCache this' !! s = Some {| count := 0; lastSent := now |}
    /\ (forall later,
          run config this tr (ErrorEvent message now :: later)
          = '(this'', tr'', sent_later) ← run config this' tr' later;
            mret (this'', tr'', (sent ++ sent_later)%list)).
Proof.
  intros Hkey Hdec. simpl handle.
  rewrite (write_signed _ _ _ _ _ Hkey). cbv zeta. rewrite Hdec.
  eexists _, _, _. split; [reflexivity|]. split.
  - simpl. apply lookup_insert_eq.
  - intros later. rewrite run_cons. simpl handle.
    rewrite (write_signed _ _ _ _ _ Hkey). cbv zeta. rewrite Hdec.
    reflexivity.
Qed.

(** C4, amended.  With a window of 0 a record sends its own letters, with
    the subject that carries no count, exactly when it arrives later than
    the last send stored for its signature, or above 0 when nothing is
    stored.  A record arriving in the very millisecond of the stored last
    send, or before it on a clock that was set back, is absorbed: nothing
    is sent, and the stored entry is counted once more and keeps its last
    send. *)
Theorem C4_zero_window this tr message now s :
  dailyErrorCacheTimeMs this = 0 ->
  cacheKey_of message = Normal s ->
  exists this' tr' sent,
    write config this tr message now = Normal (this', tr', sent)
    /\ (dailyErrorCache this !! s = None ->
        (0 < now ->
           attempts sent
           = letter_to config (name this ++ " Error") message <$> EMAIL_TO config
           /\ dailyErrorCache this' !! s = Some {| count := 0; lastSent := now |})
        /\ (now <= 0 ->
            sent = []
            /\ dailyErrorCache this' !! s = Some {| count := 1; lastSent := 0 |}))
    /\ (forall stored, dailyErrorCache this !! s = Some stored ->
        (lastSent stored < now ->
           attempts sent
           = letter_to config (name this ++ " Error") message <$> EMAIL_TO config
           /\ dailyErrorCache this' !! s = Some {| count := 0; lastSent := now |})
        /\ (now <= lastSent stored ->
            sent = []
            /\ dailyErrorCache this' !! s
               = Some {| count := count stored + 1;
                         lastSent := lastSent stored |})).
Proof.
  intros Hwin Hkey.
  rewrite (write_signed _ _ _ _ _ Hkey). cbv zeta.
  assert (Hsubject : forall entry, emailSubject this entry = name this ++ " Error")
    by (intros entry; unfold emailSubject; by rewrite Hwin).
  destruct (shouldSend this (increment (get_or_fresh (dailyErrorCache this) s)) now)
    eqn:Hdec.
  - apply shouldSend_spec in Hdec. rewrite Hwin in Hdec. simpl in Hdec.
    eexists _, _, _. split; [reflexivity|].
    rewrite dispatch_attempts, Hsubject. simpl. rewrite lookup_insert_eq.
    unfold get_or_fresh in Hdec. split.
    + intros Hnone. rewrite Hnone in Hdec. simpl in Hdec.
      split; [done|]. intros Hearly. lia.
    + intros stored Hstored. rewrite Hstored in Hdec.
      split; [done|]. intros Hearly. lia.
  - apply shouldSend_false in Hdec. rewrite Hwin in Hdec. simpl in Hdec.
    eexists _, _, _. split; [reflexivity|].
    simpl. rewrite lookup_insert_eq. unfold get_or_fresh in *. split.
    + intros Hnone. rewrite Hnone in *. simpl in Hdec.
      split; [intros Hlate; lia|done].
    + intros stored Hstored. rewrite Hstored in *.
      split; [intros Hlate; lia|done].
Qed.



(** C7.  When the decision is to send, [write] returns normally whatever
    the transport does with the letters; it makes one attempt per address
    of [EMAIL_TO], in order and no more; each attempt's fate is the one
    the transport gave it, and each rejection yields one line of
    [console.error] with the label of the [.catch] handler. *)
Theorem C7_one_attempt_per_recipient this tr message now s :
  cacheKey_of message = Normal s ->
  shouldSend this (increment (get_or_fresh (dailyErrorCache this) s)) now = true ->
  exists this' tr' sent,
    write config this tr message now = Normal (this', tr', sent)
    /\ length sent = length (EMAIL_TO config)
    /\ attempts sent
       = letter_to config
           (emailSubject this (increment (get_or_fresh (dailyErrorCache this) s)))
           message <$> EMAIL_TO config
    /\ to <$> attempts sent = EMAIL_TO config
    /\ Forall (fun d => exists tr0, rejected d = (sendMail tr0 (letter d)).2) sent
    /\ length (diagnostics sent)
       = length (filter (fun d => is_Some (rejected d)) sent)
    /\ Forall (fun line => label line = "Failed to send error email: ")
              (diagnostics sent).
Proof.
  intros Hkey Hdec. rewrite (write_signed _ _ _ _ _ Hkey). cbv zeta.
  rewrite Hdec. eexists _, _, _. split; [reflexivity|].
  set (sent := (dispatch config tr _ _ _).2).
  assert (Hatt : attempts sent = letter_to config
            (emailSubject this (increment (get_or_fresh (dailyErrorCache this) s)))
            message <$> EMAIL_TO config) by apply dispatch_attempts.
  split; [|split; [|split; [|split; [|split]]]].
  - rewrite <- (length_fmap letter sent). fold (attempts sent).
    rewrite Hatt. apply length_fmap.
  - exact Hatt.
  - rewrite Hatt, <- list_fmap_compose. apply list_fmap_id.
  - apply dispatch_fates.
  - clear. induction sent as [|d sent IH]; [done|].
    unfold diagnostics in *. rewrite filter_cons. simpl.
    destruct (rejected d); simpl; [f_equal|]; exact IH.
  - clear. induction sent as [|d sent IH]; [constructor|].
    unfold diagnostics in *. simpl. destruct (rejected d); simpl; [|done].
    constructor; [done|]. apply IH.
Qed.

(** C8, amended.  [write] has no handler of its own: a record that
    [JSON.parse] rejects makes it throw what [JSON.parse] threw, the JSON
    value [null] makes it throw a [TypeError], and in general it throws
    what the derivation of the cache key throws.  Every other record is
    handled, whatever members it has: a [level] or [message] that is
    missing reads [undefined] in the signature, and when the decision is to
    send, every recipient gets the raw record as text. *)
Theorem C8_record_without_fields this tr message now :
  (forall e, JSON_parse message = Throw e ->
             write config this tr message now = Throw e)
  /\ (JSON_parse message = Normal JNull ->
      write config this tr message now = Throw TypeError)
  /\ (forall e, cacheKey_of message = Throw e ->
                write config this tr message now = Throw e)
  /\ (forall s, cacheKey_of message = Normal s ->
        exists this' tr' sent,
          write config this tr message now = Normal (this', tr', sent)
          /\ (shouldSend this
                (increment (get_or_fresh (dailyErrorCache this) s)) now = true ->
              to <$> attempts sent = EMAIL_TO config
              /\ Forall (fun m => text m = message) (attempts sent)))
  /\ (forall v level msg level_text msg_text,
        JSON_parse message = Normal v ->
        get_property v "level" = Normal level ->
        get_property v "message" = Normal msg ->
        (level = None /\ level_text = "undefined"
         \/ level = Some (JString level_text)) ->
        (msg = None /\ msg_text = "undefined"
         \/ msg = Some (JString msg_text)) ->
        cacheKey_of message = Normal (level_text ++ ": " ++ msg_text))
  /\ (forall v, JSON_parse message = Normal v ->
        get_property v "level" = Normal None ->
        get_property v "message" = Normal None ->
        cacheKey_of message = Normal "undefined: undefined"
        /\ exists this' tr' sent,
             write config this tr message now = Normal (this', tr', sent)
             /\ (shouldSend this
                   (increment (get_or_fresh (dailyErrorCache this)
                                            "undefined: undefined")) now = true ->
                 to <$> attempts sent = EMAIL_TO config
                 /\ Forall (fun m => text m = message) (attempts sent))).
Proof.
  assert (Hforward : forall s, cacheKey_of message = Normal s ->
        exists this' tr' sent,
          write config this tr message now = Normal (this', tr', sent)
          /\ (shouldSend this
                (increment (get_or_fresh (dailyErrorCache this) s)) now = true ->
              to <$> attempts sent = EMAIL_TO config
              /\ Forall (fun m => text m = message) (attempts sent))).
  { intros s Hkey. rewrite (write_signed _ _ _ _ _ Hkey). cbv zeta.
    destruct (shouldSend _ _ _).
    - eexists _, _, _. split; [reflexivity|]. intros _.
      rewrite dispatch_attempts. split.
      + rewrite <- list_fmap_compose. apply list_fmap_id.
      + apply Forall_fmap, Forall_true. done.
    - eexists _, _, _. split; [reflexivity|]. done. }
  assert (Hkeys : forall v level msg level_text msg_text,
        JSON_parse message = Normal v ->
        get_property v "level" = Normal level ->
        get_property v "message" = Normal msg ->
        (level = None /\ level_text = "undefined"
         \/ level = Some (JString level_text)) ->
        (msg = None /\ msg_text = "undefined"
         \/ msg = Some (JString msg_text)) ->
        cacheKey_of message = Normal (level_text ++ ": " ++ msg_text)).
  { intros v level msg level_text msg_text Hparse Hlevel Hmsg Hl Hm.
    unfold cacheKey_of. rewrite Hparse. simpl. rewrite Hlevel. simpl.
    destruct Hl as [[-> ->]| ->], Hm as [[-> ->]| ->]; simpl;
      by rewrite Hmsg. }
  split; [|split; [|split; [|split; [|split]]]].
  - intros e Hparse. unfold write, cacheKey_of. by rewrite Hparse.
  - intros Hnull. unfold write, cacheKey_of. by rewrite Hnull.
  - intros e Hkey. unfold write. by rewrite Hkey.
  - exact Hforward.
  - exact Hkeys.
  - intros v Hparse Hlevel Hmsg.
    assert (Hkey : cacheKey_of message = Normal "undefined: undefined")
      by (apply (Hkeys v None None "undefined" "undefined"); auto).
    split; [done|]. by apply Hforward.
Qed.

(** C10.  For a signature without a cache entry the decision is
    [now > window], not an unconditional yes: with [now <= window] the
    first occurrence sends nothing and is stored as
    [{count: 1, lastSent: 0}]; with [now > window] it goes to every
    recipient. *)
Theorem C10_first_occurrence_needs_late_clock this tr message now s :
  cacheKey_of message = Normal s ->
  dailyErrorCache this !! s = None ->
  shouldSend this (increment (get_or_fresh (dailyErrorCache this) s)) now
  = (now >? dailyErrorCacheTimeMs this)
  /\ exists this' tr' sent,
       write config this tr message now = Normal (this', tr', sent)
       /\ (now <= dailyErrorCacheTimeMs this ->
             sent = []
             /\ dailyErrorCache this' !! s = Some {| count := 1; lastSent := 0 |})
       /\ (now > dailyErrorCacheTimeMs this ->
             to <$> attempts sent = EMAIL_TO config
             /\ dailyErrorCache this' !! s = Some {| count := 0; lastSent := now |}).
Proof.
  intros Hkey Hnone. rewrite (write_signed _ _ _ _ _ Hkey). cbv zeta.
  unfold get_or_fresh. rewrite Hnone.
  assert (Hdec : shouldSend this (increment {| count := 0; lastSent := 0 |}) now
                 = (now >? dailyErrorCacheTimeMs this)).
  { unfold shouldSend. simpl. by rewrite Z.sub_0_r. }
  split; [done|]. rewrite Hdec.
  destruct (now >? dailyErrorCacheTimeMs this) eqn:Hgt.
  - apply Z.gtb_gt in Hgt. eexists _, _, _. split; [reflexivity|].
    split; [lia|]. intros _. split.
    + rewrite dispatch_attempts, <- list_fmap_compose. apply list_fmap_id.
    + simpl. apply lookup_insert_eq.
  - rewrite Z.gtb_ltb in Hgt. apply Z.ltb_ge in Hgt.
    eexists _, _, _. split; [reflexivity|].
    split; [|lia]. intros _. split; [done|]. simpl. apply lookup_insert_eq.
Qed.

End AlertFacts.

(** * Properties of the environment schema *)

Lemma string_app_cons c (s1 s2 : string) : String c s1 ++ s2 = String c (s1 ++ s2).
Proof. reflexivity. Qed.

Lemma string_app_empty_l (s : string) : EmptyString ++ s = s.
Proof. reflexivity. Qed.

Lemma string_app_nil (s1 s2 : string) :
  s1 ++ s2 = EmptyString -> s1 = EmptyString /\ s2 = EmptyString.
Proof.
  destruct s1; [by rewrite string_app_empty_l|].
  rewrite string_app_cons. discriminate.
Qed.

Lemma string_app_empty_r (s : string) : s ++ EmptyString = s.
Proof.
  induction s as [|c s IH]; [done|]. rewrite string_app_cons. by f_equal.
Qed.

Lemma string_app_assoc (s1 s2 s3 : string) : (s1 ++ s2) ++ s3 = s1 ++ s2 ++ s3.
Proof.
  induction s1 as [|c s1 IH]; [done|]. rewrite !string_app_cons. by f_equal.
Qed.

Lemma nullable_matches r : nullable r = true <-> matches r EmptyString.
Proof.
  split.
  - induction r as [| |p|r1 IH1 r2 IH2|r1 IH1 r2 IH2|r IH]; simpl; intros Hn;
      try discriminate.
    + constructor.
    + apply andb_true_iff in Hn as [H1 H2].
      change EmptyString with (EmptyString ++ EmptyString). constructor; auto.
    + apply orb_true_iff in Hn as [H1|H2];
        [apply matches_alt_l|apply matches_alt_r]; auto.
    + constructor.
  - remember EmptyString as s eqn:Hs. induction 1; simpl; try done.
    + apply string_app_nil in Hs as [-> ->]. rewrite IHmatches1, IHmatches2; done.
    + rewrite IHmatches; done.
    + rewrite IHmatches, orb_true_r; done.
Qed.

Lemma matches_deriv r s' :
  matches r s' -> forall c s, s' = String c s -> matches (deriv c r) s.
Proof.
  induction 1 as [|p a Ha|r1 r2 s1 s2 H1 IH1 H2 IH2|r1 r2 s0 H0 IH|r1 r2 s0 H0 IH
                  | |r s1 s2 H1 IH1 H2 IH2]; intros c s Hs; simpl.
  - discriminate.
  - injection Hs as -> <-. rewrite Ha. constructor.
  - destruct s1 as [|c1 s1];
      [rewrite string_app_empty_l in Hs|rewrite string_app_cons in Hs].
    + apply nullable_matches in H1. rewrite H1. apply matches_alt_r. eauto.
    + injection Hs as -> <-.
      assert (matches (Seq (deriv c r1) r2) (s1 ++ s2))
        by (constructor; eauto).
      destruct (nullable r1); [by apply matches_alt_l|done].
  - apply matches_alt_l. eauto.
  - apply matches_alt_r. eauto.
  - discriminate.
  - destruct s1 as [|c1 s1];
      [rewrite string_app_empty_l in Hs|rewrite string_app_cons in Hs].
    + eauto.
    + injection Hs as -> <-. constructor; eauto.
Qed.

Lemma deriv_matches c r : forall s, matches (deriv c r) s -> matches r (String c s).
Proof.
  induction r as [| |p|r1 IH1 r2 IH2|r1 IH1 r2 IH2|r IH]; simpl; intros s Hm.
  - inversion Hm.
  - inversion Hm.
  - destruct (p c) eqn:Hp; inversion Hm; subst. by constructor.
  - assert (Hseq : forall s, matches (Seq (deriv c r1) r2) s ->
                             matches (Seq r1 r2) (String c s)).
    { intros s0 H0. inversion H0; subst.
      change (String c (s1 ++ s2)) with (String c s1 ++ s2). constructor; auto. }
    destruct (nullable r1) eqn:Hn; [|auto].
    inversion Hm; subst; [auto|].
    change (String c s) with (EmptyString ++ String c s).
    constructor; [by apply nullable_matches|auto].
  - inversion Hm; subst; [apply matches_alt_l|apply matches_alt_r]; auto.
  - inversion Hm; subst.
    change (String c (s1 ++ s2)) with (String c s1 ++ s2). constructor; auto.
Qed.

(** The matcher decides membership. *)
Lemma test_matches s : forall r, test r s = true <-> matches r s.
Proof.
  induction s as [|c s IH]; intros r; simpl.
  - apply nullable_matches.
  - rewrite IH. split; [apply deriv_matches|].
    intros Hm. by eapply matches_deriv.
Qed.

Lemma every_char_cons p c s :
  every_char p (String c s) <-> p c = true /\ every_char p s.
Proof.
  unfold every_char. simpl. split.
  - intros Hall. split; [apply Hall; by left|]. intros c' Hin. apply Hall. by right.
  - intros [Hc Hall] c' [<-|Hin]; auto.
Qed.

Lemma every_char_empty p : every_char p EmptyString.
Proof. intros c []. Qed.

Lemma matches_star_class p s : matches (Star (Class p)) s <-> every_char p s.
Proof.
  split.
  - remember (Star (Class p)) as r eqn:Hr.
    induction 1 as [| | | | | |r s1 s2 H1 _ H2 IH2]; try discriminate.
    + apply every_char_empty.
    + injection Hr as ->. inversion H1; subst.
      rewrite string_app_cons, string_app_empty_l.
      apply every_char_cons. auto.
  - induction s as [|c s IH]; intros Hall; [constructor|].
    apply every_char_cons in Hall as [Hc Hall].
    change (String c s) with (String c EmptyString ++ s).
    constructor; [by constructor|auto].
Qed.

Lemma matches_plus_class p s :
  matches (Plus (Class p)) s <-> s <> EmptyString /\ every_char p s.
Proof.
  unfold Plus. split.
  - intros Hm. inversion Hm as [| |r1 r2 s1 s2 H1 H2| | | |]; subst.
    inversion H1; subst. rewrite string_app_cons, string_app_empty_l.
    split; [discriminate|]. apply every_char_cons.
    split; [done|]. by apply matches_star_class.
  - intros [Hne Hall]. destruct s as [|c s]; [done|].
    apply every_char_cons in Hall as [Hc Hall].
    change (String c s) with (String c EmptyString ++ s).
    constructor; [by constructor|]. by apply matches_star_class.
Qed.

Lemma matches_char (a : ascii) s :
  matches (Class (Ascii.eqb a)) s <-> s = String a EmptyString.
Proof.
  split.
  - intros Hm. inversion Hm as [|p c Hc| | | | |]; subst.
    by apply Ascii.eqb_eq in Hc as ->.
  - intros ->. constructor. apply Ascii.eqb_refl.
Qed.

(** The pattern accepts exactly the strings of the shape
    [local@domain.tld], none of whose parts is empty or holds white space or
    a second [@]. *)
Lemma email_regex_shape s :
  test email_regex s = true <-> local_at_domain_dot_tld s.
Proof.
  rewrite test_matches. unfold email_regex, local_at_domain_dot_tld. split.
  - intros Hm.
    inversion Hm as [| |? ? u rest1 Hu Hrest1| | | |]; subst.
    inversion Hrest1 as [| |? ? at_ rest2 Hat Hrest2| | | |]; subst.
    inversion Hrest2 as [| |? ? v rest3 Hv Hrest3| | | |]; subst.
    inversion Hrest3 as [| |? ? dot w Hdot Hw| | | |]; subst.
    apply matches_char in Hat as ->. apply matches_char in Hdot as ->.
    apply matches_plus_class in Hu as [? ?].
    apply matches_plus_class in Hv as [? ?].
    apply matches_plus_class in Hw as [? ?].
    exists u, v, w. repeat split; done.
  - intros (u & v & w & -> & Hu & Hv & Hw & Hcu & Hcv & Hcw).
    constructor; [by apply matches_plus_class|].
    constructor; [by apply matches_char|].
    constructor; [by apply matches_plus_class|].
    constructor; [by apply matches_char|].
    by apply matches_plus_class.
Qed.

Lemma split_comma_nonempty str : split_comma str <> [].
Proof.
  induction str as [|c rest IH]; simpl; [done|].
  destruct (Ascii.eqb c ","); [done|]. by destruct (split_comma rest).
Qed.

Lemma EMAIL_TO_transform_inv str :
  EMAIL_TO_transform str
  = if forallb (test email_regex) (trim <$> split_comma str)
    then Normal (trim <$> split_comma str)
    else Throw (Error
           "Invalid email list format: must be comma-separated email addresses").
Proof.
  unfold EMAIL_TO_transform. by destruct (forallb _ _).
Qed.

Section SchemaFacts.

Variable zod_email : string -> bool.
Variable Number_of : option string -> float.

(** C9, amended.  The check of [EMAIL_TO] is a check of shape.  Parsing
    the environment throws the format error when an entry of [EMAIL_TO],
    trimmed, is not of the shape [local@domain.tld], with no part empty and
    no white space or second [@], and throws when [EMAIL_TO] is not set.
    Entries of that shape pass, whether or not they are addresses.  The
    parse returns only with a non-empty list of entries of that shape.
    When it throws, start-up throws the same error and builds no logger; a
    logger that is built was built after the parse returned; and the alert
    path takes its configuration as it is, without checking it again. *)
Theorem C9_EMAIL_TO_validated_at_startup (env : gmap string string) :
  (forall raw,
      env !! "EMAIL_TO" = Some raw ->
      Exists (fun entry => ~ local_at_domain_dot_tld entry)
             (trim <$> split_comma raw) ->
      envSchema_parse zod_email Number_of env = Throw (Error
        "Invalid email list format: must be comma-separated email addresses")
      /\ forall options,
           startup zod_email Number_of env options = Throw (Error
        "Invalid email list format: must be comma-separated email addresses"))
  /\ (env !! "EMAIL_TO" = None ->
      throws (envSchema_parse zod_email Number_of env)
      /\ forall options, throws (startup zod_email Number_of env options))
  /\ (forall raw,
        Forall local_at_domain_dot_tld (trim <$> split_comma raw) ->
        EMAIL_TO_transform raw = Normal (trim <$> split_comma raw))
  /\ (forall config,
        envSchema_parse zod_email Number_of env = Normal config ->
        exists raw,
          env !! "EMAIL_TO" = Some raw
          /\ EMAIL_TO config = trim <$> split_comma raw
          /\ EMAIL_TO config <> []
          /\ Forall local_at_domain_dot_tld (EMAIL_TO config))
  /\ (forall options e,
        envSchema_parse zod_email Number_of env = Throw e ->
        startup zod_email Number_of env options = Throw e)
  /\ (forall options config this,
        startup zod_email Number_of env options = Normal (config, this) ->
        envSchema_parse zod_email Number_of env = Normal config
        /\ this = AppLogger_new options)
  /\ (forall (runtime : Runtime) (config : Config) this tr message now s,
        cacheKey_of message = Normal s ->
        exists this' tr' sent,
          write config this tr message now = Normal (this', tr', sent)).
Proof.
  assert (Hinvalid : forall raw,
      env !! "EMAIL_TO" = Some raw ->
      Exists (fun entry => ~ local_at_domain_dot_tld entry)
             (trim <$> split_comma raw) ->
      envSchema_parse zod_email Number_of env = Throw (Error
        "Invalid email list format: must be comma-separated email addresses")).
  { intros raw Hraw Hbad. unfold envSchema_parse, z_string. rewrite Hraw.
    rewrite EMAIL_TO_transform_inv.
    assert (Hall : forallb (test email_regex) (trim <$> split_comma raw) = false).
    { apply not_true_is_false. intros Hall.
      rewrite forallb_forall in Hall.
      apply Exists_exists in Hbad as (entry & Hin & Hentry).
      apply Hentry, email_regex_shape, Hall. by apply list_elem_of_In. }
    rewrite Hall. reflexivity. }
  assert (Hunset : env !! "EMAIL_TO" = None ->
                   throws (envSchema_parse zod_email Number_of env)).
  { intros Hnone. unfold envSchema_parse, z_string. rewrite Hnone. simpl.
    eexists. reflexivity. }
  assert (Hfatal : forall options e,
        envSchema_parse zod_email Number_of env = Throw e ->
        startup zod_email Number_of env options = Throw e).
  { intros options e He. unfold startup. by rewrite He. }
  split; [|split; [|split; [|split; [|split; [|split]]]]].
  - intros raw Hraw Hbad. split; [by apply (Hinvalid raw)|].
    intros options. apply Hfatal. by apply (Hinvalid raw).
  - intros Hnone. split; [by apply Hunset|].
    intros options. destruct (Hunset Hnone) as [e He]. exists e.
    by apply Hfatal.
  - intros raw Hshape. rewrite EMAIL_TO_transform_inv.
    assert (Hall : forallb (test email_regex) (trim <$> split_comma raw) = true).
    { apply forallb_forall. intros entry Hin. apply email_regex_shape.
      rewrite Forall_forall in Hshape. apply Hshape. by apply list_elem_of_In. }
    by rewrite Hall.
  - intros config Hparse. unfold envSchema_parse, z_string in Hparse.
    destruct (env !! "EMAIL_TO") as [raw|] eqn:Hraw.
    + rewrite EMAIL_TO_transform_inv in Hparse.
      destruct (forallb _ _) eqn:Hall; [|discriminate].
      simpl in Hparse.
      destruct (z_string_email _ _), (env !! "EMAIL_HOST"),
        (z_coerce_number_min0 _ _), (z_string_email _ _),
        (env !! "EMAIL_PASSWORD"); try discriminate.
      injection Hparse as <-. simpl. exists raw.
      split; [done|]. split; [done|]. split.
      * intros Hnil. apply fmap_nil_inv in Hnil.
        by apply split_comma_nonempty in Hnil.
      * apply Forall_forall. intros entry Hin.
        apply email_regex_shape. rewrite forallb_forall in Hall.
        apply Hall. by apply list_elem_of_In.
    + simpl in Hparse. discriminate.
  - exact Hfatal.
  - intros options config this Hstart. unfold startup in Hstart.
    destruct (envSchema_parse _ _ _) as [config'|]; [|discriminate].
    simpl in Hstart. by injection Hstart as -> ->.
  - intros runtime config this tr message now s Hkey.
    rewrite (write_signed _ _ _ _ _ _ Hkey). cbv zeta.
    destruct (shouldSend _ _ _); eauto.
Qed.

End SchemaFacts.

(** * The properties on the example deployment *)

Lemma C1_witness :
  cacheKey_of (runtime := delivers_all) disk_full = Normal "error: disk full"
  /\ (exists this' tr' sent,
        write (runtime := delivers_all) ops_config alerted_logger tt
              disk_full (t0 + 60000)
        = Normal (this', tr', sent)
        /\ sent = []
        /\ dailyErrorCache this' !! "error: disk full"
           = Some {| count := 1; lastSent := t0 |})
  /\ (exists this' tr' sent,
        write (runtime := delivers_all) solo_config alerted_logger tt
              disk_full (t0 + 60001)
        = Normal (this', tr', sent)
        /\ subject <$> attempts sent
           = ["svc Error (1 occurrences in past 1 minutes)"]
        /\ dailyErrorCache this' !! "error: disk full"
           = Some {| count := 0; lastSent := t0 + 60001 |}).
Proof.
  split; [reflexivity|]. split.
  - destruct (C1_dedup_step (runtime := delivers_all) ops_config alerted_logger
                tt disk_full (t0 + 60000) "error: disk full" eq_refl)
      as (_ & _ & _ & _ & this' & tr' & sent & Hwrite & _ & _ & Hstay & _).
    exists this', tr', sent. split; [exact Hwrite|].
    apply Hstay. vm_compute. discriminate.
  - destruct (C1_dedup_step (runtime := delivers_all) solo_config alerted_logger
                tt disk_full (t0 + 60001) "error: disk full" eq_refl)
      as (_ & _ & _ & _ & this' & tr' & sent & Hwrite & _ & Hsend & _ & _).
    exists this', tr', sent. split; [exact Hwrite|].
    destruct Hsend as (Hletters & _ & Hentry); [reflexivity|].
    split; [|exact Hentry]. rewrite Hletters. reflexivity.
Defined.

Lemma C2_counterexample :
  run (runtime := delivers_all) solo_config minute_logger tt
      (error_events [(disk_full, t0); (disk_full, t0 + 1); (disk_full, t0 + 2)])
  = Normal
      ({| name := "svc";
          dailyErrorCache :=
            {[ "error: disk full" := {| count := 2; lastSent := t0 |} ]};
          dailyErrorCacheTimeMs := 60000 |},
       tt,
       [ {| letter :=
              {| from := "alerts@example.com";
                 to := "ops@example.com";
                 subject := "svc Error (1 occurrences in past 1 minutes)";
                 text := disk_full |};
            rejected := None |} ]).
Proof. vm_compute. reflexivity. Qed.

Lemma C2_witness :
  (dailyErrorCacheTimeMs alerted_logger > 0
   /\ count (get_or_fresh (dailyErrorCache alerted_logger) "error: disk full") = 0
   /\ Forall (fun arrival =>
               cacheKey_of (runtime := delivers_all) arrival.1
               = Normal "error: disk full"
               /\ arrival.2
                  - lastSent (get_or_fresh (dailyErrorCache alerted_logger)
                                           "error: disk full")
                  <= dailyErrorCacheTimeMs alerted_logger)
             [(disk_full, t0 + 1000); (disk_full, t0 + 30000)]
   /\ cacheKey_of (runtime := delivers_all) disk_full = Normal "error: disk full"
   /\ t0 + 70000
      - lastSent (get_or_fresh (dailyErrorCache alerted_logger) "error: disk full")
      > dailyErrorCacheTimeMs alerted_logger)
  /\ exists this' tr' sent,
       run (runtime := delivers_all) solo_config alerted_logger tt
           (error_events [(disk_full, t0 + 1000); (disk_full, t0 + 30000);
                          (disk_full, t0 + 70000)])
       = Normal (this', tr', sent)
       /\ subject <$> attempts sent
          = ["svc Error (3 occurrences in past 1 minutes)"].
Proof.
  assert (Hwin : dailyErrorCacheTimeMs alerted_logger > 0) by reflexivity.
  assert (Hcount : count (get_or_fresh (dailyErrorCache alerted_logger)
                                       "error: disk full") = 0) by reflexivity.
  assert (Hall : Forall (fun arrival =>
               cacheKey_of (runtime := delivers_all) arrival.1
               = Normal "error: disk full"
               /\ arrival.2
                  - lastSent (get_or_fresh (dailyErrorCache alerted_logger)
                                           "error: disk full")
                  <= dailyErrorCacheTimeMs alerted_logger)
             [(disk_full, t0 + 1000); (disk_full, t0 + 30000)]).
  { repeat constructor; vm_compute; discriminate. }
  assert (Hkey : cacheKey_of (runtime := delivers_all) disk_full
                 = Normal "error: disk full") by reflexivity.
  assert (Hlate : t0 + 70000
      - lastSent (get_or_fresh (dailyErrorCache alerted_logger) "error: disk full")
      > dailyErrorCacheTimeMs alerted_logger) by reflexivity.
  split; [repeat split; assumption|].
  destruct (C2_batch_report (runtime := delivers_all) solo_config alerted_logger tt
              [(disk_full, t0 + 1000); (disk_full, t0 + 30000)]
              disk_full (t0 + 70000) "error: disk full"
              Hwin Hcount Hall Hkey Hlate)
    as (this' & tr' & sent & Hrun & Hsent & _).
  exists this', tr', sent. split; [exact Hrun|].
  rewrite Hsent. vm_compute. reflexivity.
Defined.

Lemma C3_witness :
  (cacheKey_of (runtime := delivers_all) disk_full = Normal "error: disk full"
   /\ shouldSend minute_logger
        (increment (get_or_fresh (dailyErrorCache minute_logger) "error: disk full"))
        t0 = true)
  /\ exists this' tr' sent,
       handle (runtime := delivers_all) ops_config minute_logger tt
              (ErrorEvent disk_full t0)
       = Normal (this', tr', sent)
       /\ dailyErrorCache this' !! "error: disk full"
          = Some {| count := 0; lastSent := t0 |}.
Proof.
  split; [split; reflexivity|].
  destruct (C3_send_resets_entry (runtime := delivers_all) ops_config
              minute_logger tt disk_full t0 "error: disk full" eq_refl eq_refl)
    as (this' & tr' & sent & Hstep & Hentry & _).
  exists this', tr', sent. split; assumption.
Defined.

Lemma C4_counterexample :
  write (runtime := delivers_all) solo_config eager_alerted_logger tt
        disk_full (t0 - 5)
  = Normal
      ({| name := "svc";
          dailyErrorCache :=
            {[ "error: disk full" := {| count := 1; lastSent := t0 |} ]};
          dailyErrorCacheTimeMs := 0 |},
       tt, []).
Proof. vm_compute. reflexivity. Qed.

Lemma C4_witness :
  (dailyErrorCacheTimeMs eager_alerted_logger = 0
   /\ cacheKey_of (runtime := delivers_all) disk_full = Normal "error: disk full")
  /\ (exists this' tr' sent,
        write (runtime := delivers_all) solo_config eager_alerted_logger tt
              disk_full t0
        = Normal (this', tr', sent)
        /\ sent = []
        /\ dailyErrorCache this' !! "error: disk full"
           = Some {| count := 1; lastSent := t0 |})
  /\ (exists this' tr' sent,
        write (runtime := delivers_all) solo_config eager_alerted_logger tt
              disk_full (t0 + 1)
        = Normal (this', tr', sent)
        /\ subject <$> attempts sent = ["svc Error"]
        /\ dailyErrorCache this' !! "error: disk full"
           = Some {| count := 0; lastSent := t0 + 1 |})
  /\ (exists this' tr' sent,
        write (runtime := delivers_all) solo_config eager_logger tt disk_full t0
        = Normal (this', tr', sent)
        /\ subject <$> attempts sent = ["svc Error"]).
Proof.
  assert (Hstored : dailyErrorCache eager_alerted_logger !! "error: disk full"
                    = Some {| count := 0; lastSent := t0 |})
    by apply lookup_singleton_eq.
  split; [split; reflexivity|]. split; [|split].
  - destruct (C4_zero_window (runtime := delivers_all) solo_config
                eager_alerted_logger tt disk_full t0 "error: disk full"
                eq_refl eq_refl)
      as (this' & tr' & sent & Hwrite & _ & Hseen).
    exists this', tr', sent. split; [exact Hwrite|].
    destruct (Hseen _ Hstored) as [_ Hsame]. apply Hsame. simpl. lia.
  - destruct (C4_zero_window (runtime := delivers_all) solo_config
                eager_alerted_logger tt disk_full (t0 + 1) "error: disk full"
                eq_refl eq_refl)
      as (this' & tr' & sent & Hwrite & _ & Hseen).
    exists this', tr', sent. split; [exact Hwrite|].
    destruct (Hseen _ Hstored) as [Hlater _].
    destruct Hlater as [Hletters Hentry]; [simpl; lia|].
    split; [|exact Hentry]. rewrite Hletters. reflexivity.
  - destruct (C4_zero_window (runtime := delivers_all) solo_config
                eager_logger tt disk_full t0 "error: disk full" eq_refl eq_refl)
      as (this' & tr' & sent & Hwrite & Hfresh & _).
    exists this', tr', sent. split; [exact Hwrite|].
    destruct (Hfresh eq_refl) as [Hfirst _].
    destruct Hfirst as [Hletters _]; [reflexivity|].
    rewrite Hletters. reflexivity.
Defined.




Lemma C7_witness :
  (cacheKey_of (runtime := refuses_dev) disk_full = Normal "error: disk full"
   /\ shouldSend minute_logger
        (increment (get_or_fresh (dailyErrorCache minute_logger) "error: disk full"))
        t0 = true)
  /\ exists this' tr' sent,
       write (runtime := refuses_dev) ops_config minute_logger tt disk_full t0
       = Normal (this', tr', sent)
       /\ length sent = 3%nat
       /\ to <$> attempts sent
          = ["ops@example.com"; "dev@example.com"; "oncall@example.com"].
Proof.
  split; [split; reflexivity|].
  destruct (C7_one_attempt_per_recipient (runtime := refuses_dev) ops_config
              minute_logger tt disk_full t0 "error: disk full" eq_refl eq_refl)
    as (this' & tr' & sent & Hwrite & Hlen & _ & Hto & _).
  exists this', tr', sent. split; [exact Hwrite|]. split; assumption.
Defined.

Lemma C7_one_rejection_of_three :
  exists this' sent,
    write (runtime := refuses_dev) ops_config minute_logger tt disk_full t0
    = Normal (this', tt, sent)
    /\ rejected <$> sent = [None; Some (Error "ECONNREFUSED"); None]
    /\ diagnostics sent
       = [ {| label := "Failed to send error email: ";
              detail := Error "ECONNREFUSED" |} ].
Proof. eexists _, _. split; [vm_compute; reflexivity|]. split; reflexivity. Qed.

Lemma C8_counterexample :
  JSON_parse (Runtime := delivers_all) plain_text = Throw SyntaxError
  /\ write (runtime := delivers_all) solo_config minute_logger tt plain_text t0
     = Throw SyntaxError.
Proof. split; reflexivity. Qed.

Lemma C8_witness :
  (JSON_parse (Runtime := delivers_more) plain_text = Throw SyntaxError
   /\ write (runtime := delivers_more) solo_config minute_logger tt plain_text t0
      = Throw SyntaxError)
  /\ (JSON_parse (Runtime := delivers_more) null_text = Normal JNull
      /\ write (runtime := delivers_more) solo_config minute_logger tt null_text t0
         = Throw TypeError)
  /\ (JSON_parse (Runtime := delivers_more) level_only
      = Normal (JObject [("level", JString "error")])
      /\ cacheKey_of (runtime := delivers_more) level_only
         = Normal "error: undefined"
      /\ exists this' tr' sent,
           write (runtime := delivers_more) solo_config minute_logger tt
                 level_only t0
           = Normal (this', tr', sent)
           /\ text <$> attempts sent = [level_only])
  /\ (JSON_parse (Runtime := delivers_all) bare_record
      = Normal (JObject [("timestamp", JString "2024-05-01 10:00:00")])
      /\ exists this' tr' sent,
           write (runtime := delivers_all) solo_config minute_logger tt
                 bare_record t0
           = Normal (this', tr', sent)
           /\ text <$> attempts sent = [bare_record]).
Proof.
  destruct (C8_record_without_fields (runtime := delivers_more) solo_config
              minute_logger tt plain_text t0) as (Hthrow & _).
  destruct (C8_record_without_fields (runtime := delivers_more) solo_config
              minute_logger tt null_text t0) as (_ & Hnull & _).
  destruct (C8_record_without_fields (runtime := delivers_more) solo_config
              minute_logger tt level_only t0) as (_ & _ & _ & Hforward & Hkeys & _).
  destruct (C8_record_without_fields (runtime := delivers_all) solo_config
              minute_logger tt bare_record t0) as (_ & _ & _ & _ & _ & Hopaque).
  assert (Hone : forall (sent : list delivery) (record : string),
            to <$> attempts sent = EMAIL_TO solo_config ->
            Forall (fun m => text m = record) (attempts sent) ->
            text <$> attempts sent = [record]).
  { intros sent record Hto Htext.
    destruct sent as [|d [|d' rest]]; try discriminate Hto.
    apply Forall_cons in Htext as [Htext _]. simpl in *. by rewrite Htext. }
  split; [|split; [|split]].
  - split; [reflexivity|]. apply Hthrow. reflexivity.
  - split; [reflexivity|]. apply Hnull. reflexivity.
  - split; [reflexivity|].
    assert (Hkey : cacheKey_of (runtime := delivers_more) level_only
                   = Normal "error: undefined").
    { apply (Hkeys (JObject [("level", JString "error")])
                   (Some (JString "error")) None "error" "undefined");
        try reflexivity; auto. }
    split; [exact Hkey|].
    destruct (Hforward _ Hkey) as (this' & tr' & sent & Hwrite & Hsend).
    exists this', tr', sent. split; [exact Hwrite|].
    destruct (Hsend eq_refl) as [Hto Htext]. by apply Hone.
  - split; [reflexivity|].
    destruct (Hopaque _ eq_refl eq_refl eq_refl)
      as (_ & this' & tr' & sent & Hwrite & Hsend).
    exists this', tr', sent. split; [exact Hwrite|].
    destruct (Hsend eq_refl) as [Hto Htext]. by apply Hone.
Defined.

Lemma C10_witness :
  (cacheKey_of (runtime := delivers_all) disk_full = Normal "error: disk full"
   /\ dailyErrorCache minute_logger !! "error: disk full" = None)
  /\ exists this' tr' sent,
       write (runtime := delivers_all) ops_config minute_logger tt disk_full 60000
       = Normal (this', tr', sent)
       /\ sent = []
       /\ dailyErrorCache this' !! "error: disk full"
          = Some {| count := 1; lastSent := 0 |}.
Proof.
  split; [split; reflexivity|].
  destruct (C10_first_occurrence_needs_late_clock (runtime := delivers_all)
              ops_config minute_logger tt disk_full 60000 "error: disk full"
              eq_refl eq_refl)
    as (_ & this' & tr' & sent & Hwrite & Hearly & _).
  exists this', tr', sent. split; [exact Hwrite|]. apply Hearly.
  vm_compute. discriminate.
Defined.

Lemma C9_counterexample :
  startup zod_email_examples Number_of_examples
          (<["EMAIL_TO" := ".@...,a@b..c"]> ops_env)
          {| opt_name := "svc"; opt_dailyErrorCacheTimeMs := None |}
  = Normal
      ({| EMAIL_TO := [".@..."; "a@b..c"];
          EMAIL_FROM := "alerts@example.com";
          EMAIL_HOST := "smtp.example.com";
          EMAIL_PORT := 587%float;
          EMAIL_USER := "alerts@example.com";
          EMAIL_PASSWORD := "secret" |},
       eager_logger).
Proof. vm_compute. reflexivity. Qed.

Lemma C9_witness :
  (<["EMAIL_TO" := "not-an-email"]> ops_env !! "EMAIL_TO" = Some "not-an-email"
   /\ Exists (fun entry => ~ local_at_domain_dot_tld entry)
             (trim <$> split_comma "not-an-email"))
  /\ envSchema_parse zod_email_examples Number_of_examples
       (<["EMAIL_TO" := "not-an-email"]> ops_env)
     = Throw (Error
         "Invalid email list format: must be comma-separated email addresses")
  /\ (forall options,
        startup zod_email_examples Number_of_examples
          (<["EMAIL_TO" := "not-an-email"]> ops_env) options
        = Throw (Error
            "Invalid email list format: must be comma-separated email addresses"))
  /\ (Forall local_at_domain_dot_tld (trim <$> split_comma ".@...,a@b..c")
      /\ EMAIL_TO_transform ".@...,a@b..c" = Normal [".@..."; "a@b..c"])
  /\ exists config,
       envSchema_parse zod_email_examples Number_of_examples ops_env
       = Normal config
       /\ EMAIL_TO config = ["ops@example.com"; "dev@example.com"]
       /\ Forall local_at_domain_dot_tld (EMAIL_TO config).
Proof.
  assert (Hraw : <["EMAIL_TO" := "not-an-email"]> ops_env !! "EMAIL_TO"
                 = Some "not-an-email") by reflexivity.
  assert (Hbad : Exists (fun entry => ~ local_at_domain_dot_tld entry)
                        (trim <$> split_comma "not-an-email")).
  { constructor. intros Hshape. apply email_regex_shape in Hshape.
    discriminate. }
  assert (Hloose : Forall local_at_domain_dot_tld
                          (trim <$> split_comma ".@...,a@b..c")).
  { repeat constructor; by apply email_regex_shape. }
  destruct (C9_EMAIL_TO_validated_at_startup zod_email_examples
              Number_of_examples (<["EMAIL_TO" := "not-an-email"]> ops_env))
    as (Hinvalid & _ & Hpass & _).
  destruct (C9_EMAIL_TO_validated_at_startup zod_email_examples
              Number_of_examples ops_env)
    as (_ & _ & _ & Hvalid & _).
  destruct (Hinvalid "not-an-email" Hraw Hbad) as [Hparse Hstart].
  split; [by split|]. split; [exact Hparse|]. split; [exact Hstart|]. split.
  - split; [exact Hloose|]. by rewrite (Hpass _ Hloose).
  - eexists. split; [vm_compute; reflexivity|]. split; [reflexivity|].
    edestruct Hvalid as (raw & _ & _ & _ & Hshape); [vm_compute; reflexivity|].
    exact Hshape.
Defined.

(** The one-minute window over three arrivals of one record: the first
    alerts at once, the second is counted, the third alerts for both. *)
Example scenario_one_minute_window :
  exists this' sent,
    run (runtime := delivers_all) solo_config minute_logger tt
        (error_events [(disk_full, t0); (disk_full, t0 + 30000);
                       (disk_full, t0 + 70000)])
    = Normal (this', tt, sent)
    /\ subject <$> attempts sent
       = ["svc Error (1 occurrences in past 1 minutes)";
          "svc Error (2 occurrences in past 1 minutes)"]
    /\ dailyErrorCache this' !! "error: disk full"
       = Some {| count := 0; lastSent := t0 + 70000 |}.
Proof. eexists _, _. split; [vm_compute; reflexivity|]. split; reflexivity. Qed.

(** The same arrivals on a clock that starts at 0: the first one is within
    the window of the sentinel and only counted. *)
Example scenario_clock_from_zero :
  exists this' sent,
    run (runtime := delivers_all) solo_config minute_logger tt
        (error_events [(disk_full, 0); (disk_full, 30000); (disk_full, 70000)])
    = Normal (this', tt, sent)
    /\ subject <$> attempts sent
       = ["svc Error (3 occurrences in past 1 minutes)"].
Proof. eexists _, _. split; [vm_compute; reflexivity|]. reflexivity. Qed.

(** * Further properties of the alert path *)

Lemma string_length_app (s1 s2 : string) :
  String.length (s1 ++ s2) = (String.length s1 + String.length s2)%nat.
Proof.
  induction s1 as [|c s1 IH]; [done|].
  rewrite string_app_cons. simpl. by rewrite IH.
Qed.

Lemma string_app_inv_tail (s1 s2 tail : string) :
  s1 ++ tail = s2 ++ tail -> s1 = s2.
Proof.
  revert s2. induction s1 as [|c s1 IH]; intros [|c' s2] Heq.
  - done.
  - apply (f_equal String.length) in Heq.
    rewrite string_app_empty_l, string_app_cons in Heq. simpl in Heq.
    rewrite string_length_app in Heq. lia.
  - apply (f_equal String.length) in Heq.
    rewrite string_app_empty_l, string_app_cons in Heq. simpl in Heq.
    rewrite string_length_app in Heq. lia.
  - rewrite !string_app_cons in Heq. injection Heq as -> Heq.
    f_equal. by apply IH.
Qed.

Section AlertMore.

Context {runtime : Runtime}.
Variable config : Config.

Lemma handle_returns_key this tr message now this' tr' sent :
  write config this tr message now = Normal (this', tr', sent) ->
  exists s, cacheKey_of message = Normal s.
Proof.
  unfold write. destruct (cacheKey_of message) as [s|e]; [eauto|discriminate].
Qed.

(** One step keeps what is known of the entries: counts between 0 and the
    number of events so far, keys and last sends that stem from events. *)
Lemma handle_entries past this tr ev this' tr' sent :
  (forall s e, dailyErrorCache this !! s = Some e ->
     0 <= count e <= Z.of_nat (length past)
     /\ (exists m t, ErrorEvent m t ∈ past /\ cacheKey_of m = Normal s)
     /\ (lastSent e = 0
         \/ exists m, ErrorEvent m (lastSent e) ∈ past /\ cacheKey_of m = Normal s)) ->
  handle config this tr ev = Normal (this', tr', sent) ->
  name this' = name this
  /\ dailyErrorCacheTimeMs this' = dailyErrorCacheTimeMs this
  /\ (forall s e, dailyErrorCache this' !! s = Some e ->
     0 <= count e <= Z.of_nat (length (past ++ [ev])%list)
     /\ (exists m t, ErrorEvent m t ∈ (past ++ [ev])%list /\ cacheKey_of m = Normal s)
     /\ (lastSent e = 0
         \/ exists m, ErrorEvent m (lastSent e) ∈ (past ++ [ev])%list
                      /\ cacheKey_of m = Normal s)).
Proof.
  intros Hinv Hstep. destruct ev as [message now|]; simpl in Hstep.
  - destruct (handle_returns_key _ _ _ _ _ _ _ Hstep) as [s0 Hkey].
    rewrite (write_signed _ _ _ _ _ _ Hkey) in Hstep. cbv zeta in Hstep.
    assert (Hold : forall s e, dailyErrorCache this !! s = Some e ->
      0 <= count e <= Z.of_nat (length (past ++ [ErrorEvent message now])%list)
      /\ (exists m t, ErrorEvent m t ∈ (past ++ [ErrorEvent message now])%list
                      /\ cacheKey_of m = Normal s)
      /\ (lastSent e = 0
          \/ exists m, ErrorEvent m (lastSent e) ∈ (past ++ [ErrorEvent message now])%list
                       /\ cacheKey_of m = Normal s)).
    { intros s e Hse. destruct (Hinv s e Hse) as (Hc & (m & t & Hin & Hm) & Hl).
      rewrite length_app. simpl. split; [lia|]. split.
      - exists m, t. split; [|done]. apply elem_of_app. by left.
      - destruct Hl as [Hl|(m' & Hin' & Hm')]; [by left|right].
        exists m'. split; [|done]. apply elem_of_app. by left. }
    assert (Hhere : ErrorEvent message now ∈ (past ++ [ErrorEvent message now])%list).
    { apply elem_of_app. right. by apply list_elem_of_singleton. }
    assert (Hcounted :
      0 <= count (increment (get_or_fresh (dailyErrorCache this) s0))
        <= Z.of_nat (length (past ++ [ErrorEvent message now])%list)
      /\ (lastSent (increment (get_or_fresh (dailyErrorCache this) s0)) = 0
          \/ exists m, ErrorEvent m
                         (lastSent (increment (get_or_fresh (dailyErrorCache this) s0)))
                       ∈ (past ++ [ErrorEvent message now])%list
                       /\ cacheKey_of m = Normal s0)).
    { unfold get_or_fresh. destruct (dailyErrorCache this !! s0) as [e0|] eqn:He0.
      - destruct (Hold s0 e0 He0) as (Hc & _ & Hl).
        destruct (Hinv s0 e0 He0) as (Hc0 & _ & _).
        rewrite length_app in *. simpl in *. split; [lia|done].
      - simpl. rewrite length_app. simpl. split; [lia|by left]. }
    destruct (shouldSend _ _ _); injection Hstep as <- <- <-; simpl;
      (split; [done|]); (split; [done|]); intros s e Hse;
      (destruct (decide (s = s0)) as [->|Hne];
       [rewrite lookup_insert_eq in Hse; injection Hse as <-
       |rewrite lookup_insert_ne in Hse by done; by apply Hold]).
    + simpl. rewrite length_app. simpl. split; [lia|]. split; [eauto|].
      right. eauto.
    + destruct Hcounted as [Hc Hl]. split; [done|]. split; [eauto|done].
  - injection Hstep as <- <- <-. simpl. split; [done|]. split; [done|].
    intros s e Hse. by rewrite lookup_empty in Hse.
Qed.

Lemma run_entries events : forall past this tr this' tr' sent,
  (forall s e, dailyErrorCache this !! s = Some e ->
     0 <= count e <= Z.of_nat (length past)
     /\ (exists m t, ErrorEvent m t ∈ past /\ cacheKey_of m = Normal s)
     /\ (lastSent e = 0
         \/ exists m, ErrorEvent m (lastSent e) ∈ past /\ cacheKey_of m = Normal s)) ->
  run config this tr events = Normal (this', tr', sent) ->
  name this' = name this
  /\ dailyErrorCacheTimeMs this' = dailyErrorCacheTimeMs this
  /\ (forall s e, dailyErrorCache this' !! s = Some e ->
     0 <= count e <= Z.of_nat (length (past ++ events)%list)
     /\ (exists m t, ErrorEvent m t ∈ (past ++ events)%list /\ cacheKey_of m = Normal s)
     /\ (lastSent e = 0
         \/ exists m, ErrorEvent m (lastSent e) ∈ (past ++ events)%list
                      /\ cacheKey_of m = Normal s)).
Proof.
  induction events as [|ev later IH]; intros past this tr this' tr' sent Hinv Hrun.
  - simpl in Hrun. injection Hrun as <- <- <-. rewrite app_nil_r. done.
  - rewrite run_cons in Hrun.
    destruct (handle config this tr ev) as [[[this1 tr1] sent1]|] eqn:Hstep;
      [|discriminate].
    simpl in Hrun.
    destruct (run config this1 tr1 later) as [[[this2 tr2] sent2]|] eqn:Hlater;
      [|discriminate].
    simpl in Hrun. injection Hrun as <- <- <-.
    destruct (handle_entries past this tr ev this1 tr1 sent1 Hinv Hstep)
      as (Hname1 & Hwin1 & Hinv1).
    destruct (IH (past ++ [ev])%list this1 tr1 this2 tr2 sent2 Hinv1 Hlater)
      as (Hname2 & Hwin2 & Hinv2).
    rewrite <- app_assoc in Hinv2. simpl in Hinv2.
    split; [congruence|]. split; [congruence|]. done.
Qed.

(** X1.  Whatever events a newly constructed logger has handled, it keeps
    its name and its window, the window is not negative, and every cache
    entry has a count between 0 and the number of events, a key that is the
    signature of one of the events, and a last send that is 0 or the
    arrival time of an event of that signature. *)
Theorem run_from_new_logger options tr events this' tr' sent :
  run config (AppLogger_new options) tr events = Normal (this', tr', sent) ->
  name this' = opt_name options
  /\ dailyErrorCacheTimeMs this' = dailyErrorCacheTimeMs (AppLogger_new options)
  /\ 0 <= dailyErrorCacheTimeMs this'
  /\ (forall s e, dailyErrorCache this' !! s = Some e ->
     0 <= count e <= Z.of_nat (length events)
     /\ (exists m t, ErrorEvent m t ∈ events /\ cacheKey_of m = Normal s)
     /\ (lastSent e = 0
         \/ exists m, ErrorEvent m (lastSent e) ∈ events
                      /\ cacheKey_of m = Normal s)).
Proof.
  intros Hrun.
  destruct (run_entries events [] (AppLogger_new options) tr this' tr' sent)
    as (Hname & Hwin & Hinv); [|exact Hrun|].
  { intros s e Hse. simpl in Hse. by rewrite lookup_empty in Hse. }
  split; [done|]. split; [done|]. split; [|exact Hinv].
  rewrite Hwin, AppLogger_new_window.
  destruct (opt_dailyErrorCacheTimeMs options); lia.
Qed.

(** The reports of a batch: for every alert the count it was built for and
    the record it carries. *)
Lemma batch_reports batch : forall this tr s,
  Forall (fun arrival => cacheKey_of arrival.1 = Normal s) batch ->
  exists this' tr' sent (reports : list (Z * string)),
    run config this tr (error_events batch) = Normal (this', tr', sent)
    /\ attempts sent
       = mjoin ((fun report =>
                   letter_to config
                     (emailSubject this {| count := report.1; lastSent := 0 |})
                     report.2 <$> EMAIL_TO config) <$> reports)
    /\ foldr Z.add 0 (fst <$> reports)
       + count (get_or_fresh (dailyErrorCache this') s)
       = count (get_or_fresh (dailyErrorCache this) s) + Z.of_nat (length batch).
Proof.
  induction batch as [|[message now] batch IH]; intros this tr s Hkeys.
  - exists this, tr, [], []. simpl. repeat split; try done. lia.
  - apply Forall_cons in Hkeys as [Hkey Hkeys]. simpl in Hkey.
    unfold error_events. rewrite fmap_cons, run_cons. simpl handle.
    fold (error_events batch).
    rewrite (write_signed _ _ _ _ _ _ Hkey). cbv zeta.
    set (entry := get_or_fresh (dailyErrorCache this) s).
    destruct (shouldSend this (increment entry) now) eqn:Hdec; simpl.
    + set (this1 := {| name := name this;
                       dailyErrorCache := <[s := {| count := 0; lastSent := now |}]>
                                            (dailyErrorCache this);
                       dailyErrorCacheTimeMs := dailyErrorCacheTimeMs this |}).
      set (tr1 := (dispatch config tr _ _ _).1).
      destruct (IH this1 tr1 s Hkeys)
        as (this' & tr' & sent & reports & Hrun & Hatt & Hsum).
      rewrite Hrun. simpl.
      exists this', tr', ((dispatch config tr (EMAIL_TO config)
                            (emailSubject this (increment entry)) message).2 ++ sent)%list,
        ((count entry + 1, message) :: reports).
      split; [reflexivity|]. split.
      * unfold attempts in *. rewrite fmap_app. fold (attempts
          (dispatch config tr (EMAIL_TO config)
             (emailSubject this (increment entry)) message).2).
        rewrite dispatch_attempts, Hatt. reflexivity.
      * replace (get_or_fresh (dailyErrorCache this1) s)
          with {| count := 0; lastSent := now |} in Hsum
          by (unfold get_or_fresh, this1; simpl; by rewrite lookup_insert_eq).
        rewrite fmap_cons. cbn [foldr fst count] in *.
        change (length ((message, now) :: batch)) with (S (length batch)).
        rewrite Nat2Z.inj_succ. lia.
    + set (this1 := {| name := name this;
                       dailyErrorCache := <[s := increment entry]> (dailyErrorCache this);
                       dailyErrorCacheTimeMs := dailyErrorCacheTimeMs this |}).
      destruct (IH this1 tr s Hkeys)
        as (this' & tr' & sent & reports & Hrun & Hatt & Hsum).
      rewrite Hrun. simpl. exists this', tr', sent, reports.
      split; [reflexivity|]. split; [exact Hatt|].
      replace (get_or_fresh (dailyErrorCache this1) s) with (increment entry) in Hsum
        by (unfold get_or_fresh, this1; simpl; by rewrite lookup_insert_eq).
      change (length ((message, now) :: batch)) with (S (length batch)).
      rewrite Nat2Z.inj_succ. unfold increment in Hsum. cbn [count] in Hsum. lia.
Qed.

(** With a window above 0 and someone to write to, the letters of a run
    tell which counts were reported, and with which records. *)
Lemma reports_of_letters this (reports1 reports2 : list (Z * string)) :
  dailyErrorCacheTimeMs this > 0 ->
  EMAIL_TO config <> [] ->
  mjoin ((fun report =>
            letter_to config
              (emailSubject this {| count := report.1; lastSent := 0 |})
              report.2 <$> EMAIL_TO config) <$> reports1)
  = mjoin ((fun report =>
              letter_to config
                (emailSubject this {| count := report.1; lastSent := 0 |})
                report.2 <$> EMAIL_TO config) <$> reports2) ->
  reports1 = reports2.
Proof.
  intros Hwin Hto. destruct (EMAIL_TO config) as [|admin admins] eqn:Hadmins;
    [done|]. clear Hto.
  revert reports2.
  induction reports1 as [|[c1 m1] reports1 IH]; intros [|[c2 m2] reports2] Heq;
    try done.
  rewrite !fmap_cons in Heq. simpl in Heq.
  injection Heq as Hsubject Htext Hrest.
  apply app_inj_1 in Hrest as [_ Hrest]; [|by rewrite !length_fmap].
  f_equal; [|by apply IH]. f_equal; [|done].
  unfold emailSubject in Hsubject.
  replace (dailyErrorCacheTimeMs this >? 0) with true in Hsubject
    by (symmetry; apply Z.gtb_gt; lia).
  simpl in Hsubject.
  apply (inj (String.app (name this))) in Hsubject.
  apply (inj (String.app " Error (")) in Hsubject.
  apply string_app_inv_tail in Hsubject. by apply (inj pretty) in Hsubject.
Qed.

(** X2.  Over a batch of records of one signature, with no clear in
    between, a window above 0 and someone to write to, no occurrence is
    lost or counted twice: the letters determine the counts that were
    reported, and these counts and the count left in the entry add up to
    the count the entry held before plus the number of records. *)
Theorem batch_accounting batch this tr s :
  dailyErrorCacheTimeMs this > 0 ->
  EMAIL_TO config <> [] ->
  Forall (fun arrival => cacheKey_of arrival.1 = Normal s) batch ->
  exists this' tr' sent (reports : list (Z * string)),
    run config this tr (error_events batch) = Normal (this', tr', sent)
    /\ attempts sent
       = mjoin ((fun report =>
                   letter_to config
                     (name this ++ " Error (" ++ pretty report.1
                      ++ " occurrences in past "
                      ++ pretty (dailyErrorCacheTimeMinutes this) ++ " minutes)")
                     report.2 <$> EMAIL_TO config) <$> reports)
    /\ (forall others : list (Z * string),
          attempts sent
          = mjoin ((fun report =>
                      letter_to config
                        (name this ++ " Error (" ++ pretty report.1
                         ++ " occurrences in past "
                         ++ pretty (dailyErrorCacheTimeMinutes this)
                         ++ " minutes)")
                        report.2 <$> EMAIL_TO config) <$> others) ->
          others = reports)
    /\ foldr Z.add 0 (fst <$> reports)
       + count (get_or_fresh (dailyErrorCache this') s)
       = count (get_or_fresh (dailyErrorCache this) s) + Z.of_nat (length batch).
Proof.
  intros Hwin Hto Hkeys.
  destruct (batch_reports batch this tr s Hkeys)
    as (this' & tr' & sent & reports & Hrun & Hatt & Hsum).
  assert (Hsubject : forall c,
            emailSubject this {| count := c; lastSent := 0 |}
            = name this ++ " Error (" ++ pretty c ++ " occurrences in past "
              ++ pretty (dailyErrorCacheTimeMinutes this) ++ " minutes)").
  { intros c. unfold emailSubject.
    replace (dailyErrorCacheTimeMs this >? 0) with true
      by (symmetry; apply Z.gtb_gt; lia).
    reflexivity. }
  assert (Hsame : forall rs : list (Z * string),
            mjoin ((fun report =>
                      letter_to config
                        (name this ++ " Error (" ++ pretty report.1
                         ++ " occurrences in past "
                         ++ pretty (dailyErrorCacheTimeMinutes this)
                         ++ " minutes)")
                        report.2 <$> EMAIL_TO config) <$> rs)
            = mjoin ((fun report =>
                        letter_to config
                          (emailSubject this {| count := report.1; lastSent := 0 |})
                          report.2 <$> EMAIL_TO config) <$> rs)).
  { intros rs. f_equal. apply list_fmap_ext. intros i report _.
    by rewrite Hsubject. }
  exists this', tr', sent, reports. split; [exact Hrun|].
  split; [by rewrite Hsame|]. split; [|exact Hsum].
  intros others Hothers. rewrite Hsame, Hatt in Hothers.
  symmetry. by apply (reports_of_letters this reports others Hwin Hto).
Qed.

(** X4.  Records of other signatures leave the entry of a signature as it
    was, stored or not. *)
Theorem run_other_signatures batch : forall this tr s this' tr' sent,
  Forall (fun arrival => cacheKey_of arrival.1 <> Normal s) batch ->
  run config this tr (error_events batch) = Normal (this', tr', sent) ->
  dailyErrorCache this' !! s = dailyErrorCache this !! s.
Proof.
  induction batch as [|[message now] batch IH];
    intros this tr s this' tr' sent Hkeys Hrun.
  - simpl in Hrun. by injection Hrun as <- <- <-.
  - apply Forall_cons in Hkeys as [Hkey Hkeys]. simpl in Hkey.
    unfold error_events in Hrun. rewrite fmap_cons, run_cons in Hrun.
    simpl handle in Hrun. fold (error_events batch) in Hrun.
    destruct (cacheKey_of message) as [s0|e] eqn:Hkey0.
    2:{ unfold write in Hrun. by rewrite Hkey0 in Hrun. }
    rewrite (write_signed _ _ _ _ _ _ Hkey0) in Hrun. cbv zeta in Hrun.
    assert (Hne : s0 <> s) by congruence.
    destruct (shouldSend _ _ _); simpl in Hrun;
      match type of Hrun with
      | context [run config ?this1 ?tr1 (error_events batch)] =>
          destruct (run config this1 tr1 (error_events batch))
            as [[[this2 tr2] sent2]|] eqn:Hlater; [|discriminate];
          simpl in Hrun; injection Hrun as <- <- <-;
          rewrite (IH _ _ s _ _ _ Hkeys Hlater); simpl;
          by apply lookup_insert_ne
      end.
Qed.

(** X5.  Two records of different signatures can be handled in either
    order: the logger ends in the same state and the same letters are
    handed over, up to their order. *)
Theorem different_signatures_commute this tr m1 t1 m2 t2 s1 s2 :
  cacheKey_of m1 = Normal s1 ->
  cacheKey_of m2 = Normal s2 ->
  s1 <> s2 ->
  exists this12 tr12 sent12 this21 tr21 sent21,
    run config this tr [ErrorEvent m1 t1; ErrorEvent m2 t2]
    = Normal (this12, tr12, sent12)
    /\ run config this tr [ErrorEvent m2 t2; ErrorEvent m1 t1]
       = Normal (this21, tr21, sent21)
    /\ this12 = this21
    /\ attempts sent12 ≡ₚ attempts sent21.
Proof.
  intros Hk1 Hk2 Hne. simpl.
  rewrite (write_signed _ _ _ _ _ _ Hk1), (write_signed _ _ _ _ _ _ Hk2).
  cbv zeta.
  set (e1 := increment (get_or_fresh (dailyErrorCache this) s1)).
  set (e2 := increment (get_or_fresh (dailyErrorCache this) s2)).
  assert (H21 : forall x, get_or_fresh (<[s1 := x]> (dailyErrorCache this)) s2
                          = get_or_fresh (dailyErrorCache this) s2).
  { intros x. unfold get_or_fresh. by rewrite lookup_insert_ne. }
  assert (H12 : forall x, get_or_fresh (<[s2 := x]> (dailyErrorCache this)) s1
                          = get_or_fresh (dailyErrorCache this) s1).
  { intros x. unfold get_or_fresh. by rewrite lookup_insert_ne. }
  destruct (shouldSend this e1 t1) eqn:Hd1, (shouldSend this e2 t2) eqn:Hd2;
    simpl; rewrite (write_signed _ _ _ _ _ _ Hk1), (write_signed _ _ _ _ _ _ Hk2);
    cbv zeta; simpl; rewrite ?H21, ?H12; fold e1 e2;
    unfold shouldSend in *; simpl in *; rewrite ?Hd1, ?Hd2; simpl;
    eexists _, _, _, _, _, _; (split; [reflexivity|]); (split; [reflexivity|]);
    (split; [f_equal; by apply insert_insert_ne|]);
    unfold attempts; rewrite ?fmap_app, ?app_nil_r;
    repeat match goal with
    | |- context [letter <$> (dispatch config ?tr ?a ?b ?c).2] =>
        change (letter <$> (dispatch config tr a b c).2)
          with (attempts (dispatch config tr a b c).2);
        rewrite (dispatch_attempts config tr a b c)
    end; try reflexivity.
  apply Permutation_app_comm.
Qed.

(** X19.  Alerts for one signature are rate limited: when a batch of its
    records, all arrived by [latest], raises [alerts] alerts, then [alerts]
    windows fit strictly between the last send before the batch and
    [latest]. *)
Theorem alerts_take_more_than_their_windows batch : forall this tr s latest,
  Forall (fun arrival =>
            cacheKey_of arrival.1 = Normal s /\ arrival.2 <= latest) batch ->
  exists this' tr' sent (alerts : nat),
    run config this tr (error_events batch) = Normal (this', tr', sent)
    /\ length sent = (alerts * length (EMAIL_TO config))%nat
    /\ ((1 <= alerts)%nat ->
        Z.of_nat alerts * dailyErrorCacheTimeMs this
        < latest - lastSent (get_or_fresh (dailyErrorCache this) s)).
Proof.
  induction batch as [|[message now] batch IH]; intros this tr s latest Hall.
  - exists this, tr, [], 0%nat. simpl. split; [done|]. split; [done|lia].
  - apply Forall_cons in Hall as [[Hkey Hnow] Hall]. simpl in Hkey, Hnow.
    unfold error_events. rewrite fmap_cons, run_cons. simpl handle.
    fold (error_events batch).
    rewrite (write_signed _ _ _ _ _ _ Hkey). cbv zeta.
    set (entry := get_or_fresh (dailyErrorCache this) s).
    destruct (shouldSend this (increment entry) now) eqn:Hdec; simpl.
    + apply shouldSend_spec in Hdec. simpl in Hdec.
      set (this1 := {| name := name this;
                       dailyErrorCache := <[s := {| count := 0; lastSent := now |}]>
                                            (dailyErrorCache this);
                       dailyErrorCacheTimeMs := dailyErrorCacheTimeMs this |}).
      set (tr1 := (dispatch config tr _ _ _).1).
      destruct (IH this1 tr1 s latest Hall)
        as (this' & tr' & sent & alerts & Hrun & Hlen & Hgap).
      rewrite Hrun. simpl. eexists _, _, _, (S alerts).
      split; [reflexivity|]. split.
      * rewrite length_app, dispatch_length, Hlen. simpl. lia.
      * intros _.
        replace (get_or_fresh (dailyErrorCache this1) s)
          with {| count := 0; lastSent := now |} in Hgap
          by (unfold get_or_fresh, this1; simpl; by rewrite lookup_insert_eq).
        simpl in Hgap. destruct alerts as [|alerts]; [simpl; lia|].
        specialize (Hgap ltac:(lia)). lia.
    + set (this1 := {| name := name this;
                       dailyErrorCache := <[s := increment entry]> (dailyErrorCache this);
                       dailyErrorCacheTimeMs := dailyErrorCacheTimeMs this |}).
      destruct (IH this1 tr s latest Hall)
        as (this' & tr' & sent & alerts & Hrun & Hlen & Hgap).
      rewrite Hrun. simpl. exists this', tr', sent, alerts.
      split; [reflexivity|]. split; [exact Hlen|].
      replace (get_or_fresh (dailyErrorCache this1) s) with (increment entry) in Hgap
        by (unfold get_or_fresh, this1; simpl; by rewrite lookup_insert_eq).
      exact Hgap.
Qed.


(** X7.  A record that is the JSON value [null] makes [write] throw a
    [TypeError]: reading [level] off [null] fails before the cache is
    consulted. *)
Theorem null_record_throws this tr message now :
  JSON_parse message = Normal JNull ->
  write config this tr message now = Throw TypeError.
Proof.
  intros Hnull. unfold write, cacheKey_of. by rewrite Hnull.
Qed.

Lemma cacheKey_of_strings message v level text :
  JSON_parse message = Normal v ->
  get_property v "level" = Normal (Some (JString level)) ->
  get_property v "message" = Normal (Some (JString text)) ->
  cacheKey_of message = Normal (level ++ ": " ++ text).
Proof.
  intros Hv Hl Ht. unfold cacheKey_of. rewrite Hv. simpl. rewrite Hl. simpl.
  by rewrite Ht.
Qed.

(** X8.  Among records whose level and message are strings and whose
    levels agree, two records share a cache key exactly when their message
    texts are equal. *)
Theorem same_level_key_injective m1 m2 v1 v2 level text1 text2 :
  JSON_parse m1 = Normal v1 ->
  get_property v1 "level" = Normal (Some (JString level)) ->
  get_property v1 "message" = Normal (Some (JString text1)) ->
  JSON_parse m2 = Normal v2 ->
  get_property v2 "level" = Normal (Some (JString level)) ->
  get_property v2 "message" = Normal (Some (JString text2)) ->
  (cacheKey_of m1 = cacheKey_of m2 <-> text1 = text2).
Proof.
  intros Hv1 Hl1 Ht1 Hv2 Hl2 Ht2.
  rewrite (cacheKey_of_strings _ _ _ _ Hv1 Hl1 Ht1),
          (cacheKey_of_strings _ _ _ _ Hv2 Hl2 Ht2).
  split; [|by intros ->].
  intros [= Heq]. apply (inj (String.app level)) in Heq.
  by apply (inj (String.app ": ")) in Heq.
Qed.

Lemma own_property_app members1 members2 name :
  own_property (members1 ++ members2)%list name
  = match own_property members2 name with
    | Some v => Some v
    | None => own_property members1 name
    end.
Proof.
  induction members1 as [|[k v] members1 IH]; simpl.
  - by destruct (own_property members2 name).
  - rewrite IH. by destruct (own_property members2 name).
Qed.

Lemma own_property_absent members name :
  Forall (fun member => member.1 <> name) members ->
  own_property members name = None.
Proof.
  induction members as [|[k v] members IH]; intros Hall; [done|].
  apply Forall_cons in Hall as [Hk Hall]. simpl in *. rewrite (IH Hall).
  by rewrite (proj2 (String.eqb_neq k name) Hk).
Qed.

(** X9.  The cache key reads nothing but [level] and [message]: records
    whose members differ only in members of other names, such as the
    timestamp, have the same key. *)
Theorem other_members_do_not_change_key m1 m2 before extra1 extra2 after :
  JSON_parse m1 = Normal (JObject (before ++ extra1 ++ after)%list) ->
  JSON_parse m2 = Normal (JObject (before ++ extra2 ++ after)%list) ->
  Forall (fun member => member.1 <> "level" /\ member.1 <> "message") extra1 ->
  Forall (fun member => member.1 <> "level" /\ member.1 <> "message") extra2 ->
  cacheKey_of m1 = cacheKey_of m2.
Proof.
  intros H1 H2 Hextra1 Hextra2.
  assert (Hskip : forall extra name,
            Forall (fun member : string * json => member.1 <> name) extra ->
            own_property (before ++ extra ++ after)%list name
            = own_property (before ++ after)%list name).
  { intros extra name Hne. rewrite !own_property_app.
    rewrite (own_property_absent _ _ Hne).
    by destruct (own_property after name). }
  unfold cacheKey_of. rewrite H1, H2. simpl.
  rewrite (Hskip extra1 "level"), (Hskip extra2 "level"),
    (Hskip extra1 "message"), (Hskip extra2 "message"); [done|..];
    eapply Forall_impl; eauto; simpl; tauto.
Qed.

Variable first_rejected : list delivery -> option js_error.
Variable error_text : js_error -> string.


End AlertMore.

(** * Further properties of the environment schema *)

Lemma list_ascii_of_string_app (s1 s2 : string) :
  list_ascii_of_string (s1 ++ s2)
  = (list_ascii_of_string s1 ++ list_ascii_of_string s2)%list.
Proof.
  induction s1 as [|c s1 IH]; [done|].
  rewrite string_app_cons. simpl. by rewrite IH.
Qed.

Lemma every_char_app p (s1 s2 : string) :
  every_char p (s1 ++ s2) <-> every_char p s1 /\ every_char p s2.
Proof.
  unfold every_char. rewrite list_ascii_of_string_app. split.
  - intros Hall. split; intros c Hin; apply Hall, in_or_app; auto.
  - intros [H1 H2] c Hin. apply in_app_or in Hin as [Hin|Hin]; auto.
Qed.

Lemma every_char_impl (p q : ascii -> bool) s :
  (forall c, p c = true -> q c = true) -> every_char p s -> every_char q s.
Proof. intros Hpq Hall c Hin. auto. Qed.

Lemma split_comma_app (s1 s2 : string) :
  split_comma (s1 ++ "," ++ s2) = (split_comma s1 ++ split_comma s2)%list.
Proof.
  induction s1 as [|c s1 IH].
  - reflexivity.
  - rewrite string_app_cons. simpl. rewrite IH.
    destruct (Ascii.eqb c ","); [done|].
    pose proof (split_comma_nonempty s1).
    by destruct (split_comma s1).
Qed.

Lemma split_comma_pieces str :
  Forall (every_char (fun c => negb (Ascii.eqb c ","))) (split_comma str).
Proof.
  induction str as [|c rest IH]; simpl.
  - constructor; [apply every_char_empty|constructor].
  - destruct (Ascii.eqb c ",") eqn:Hc.
    + constructor; [apply every_char_empty|done].
    + destruct (split_comma rest) as [|piece pieces].
      * constructor; [|constructor]. apply every_char_cons.
        split; [by rewrite Hc|apply every_char_empty].
      * apply Forall_cons in IH as [Hpiece Hpieces]. constructor; [|done].
        apply every_char_cons. split; [by rewrite Hc|done].
Qed.

Lemma split_comma_whole str :
  every_char (fun c => negb (Ascii.eqb c ",")) str -> split_comma str = [str].
Proof.
  induction str as [|c rest IH]; intros Hall; [done|].
  apply every_char_cons in Hall as [Hc Hall]. simpl.
  apply negb_true_iff in Hc. rewrite Hc, (IH Hall). done.
Qed.

Lemma trimStart_chars p s : every_char p s -> every_char p (trimStart s).
Proof.
  induction s as [|c rest IH]; intros Hall; simpl; [done|].
  destruct (is_whitespace c); [|done].
  apply every_char_cons in Hall as [_ Hall]. auto.
Qed.

Lemma trimEnd_chars p s : every_char p s -> every_char p (trimEnd s).
Proof.
  induction s as [|c rest IH]; intros Hall; simpl; [done|].
  apply every_char_cons in Hall as [Hc Hall]. specialize (IH Hall).
  destruct (trimEnd rest) as [|c' kept].
  - destruct (is_whitespace c); [apply every_char_empty|].
    apply every_char_cons. split; [done|apply every_char_empty].
  - apply every_char_cons. split; done.
Qed.

Lemma trim_chars p s : every_char p s -> every_char p (trim s).
Proof. intros Hall. by apply trimEnd_chars, trimStart_chars. Qed.

Lemma trimEnd_whole s :
  every_char (fun c => negb (is_whitespace c)) s -> trimEnd s = s.
Proof.
  induction s as [|c rest IH]; intros Hall; [done|].
  apply every_char_cons in Hall as [Hc Hall]. simpl. rewrite (IH Hall).
  apply negb_true_iff in Hc. rewrite Hc. by destruct rest.
Qed.

Lemma trim_whole s :
  every_char (fun c => negb (is_whitespace c)) s -> trim s = s.
Proof.
  intros Hall. unfold trim.
  assert (Hstart : trimStart s = s).
  { destruct s as [|c rest]; [done|].
    apply every_char_cons in Hall as [Hc _]. simpl.
    apply negb_true_iff in Hc. by rewrite Hc. }
  rewrite Hstart. by apply trimEnd_whole.
Qed.

Lemma email_has_no_whitespace e :
  test email_regex e = true ->
  every_char (fun c => negb (is_whitespace c)) e.
Proof.
  intros Htest. apply email_regex_shape in Htest
    as (u & v & w & -> & _ & _ & _ & Hu & Hv & Hw).
  assert (Hpart : forall s, every_char not_space_or_at s ->
                            every_char (fun c => negb (is_whitespace c)) s).
  { intros s. apply every_char_impl. intros c. unfold not_space_or_at.
    rewrite negb_orb, andb_true_iff. tauto. }
  repeat (apply every_char_app; split); auto.
  - apply every_char_cons. split; [done|apply every_char_empty].
  - apply every_char_cons. split; [done|apply every_char_empty].
Qed.

Lemma count_at_zero s :
  every_char not_space_or_at s ->
  count_occ Ascii.ascii_dec (list_ascii_of_string s) "@"%char = 0%nat.
Proof.
  intros Hall. apply count_occ_not_In. intros Hin. apply Hall in Hin.
  unfold not_space_or_at in Hin. rewrite Ascii.eqb_refl, orb_true_r in Hin.
  discriminate.
Qed.

Lemma EMAIL_TO_transform_entries str emails :
  EMAIL_TO_transform str = Normal emails ->
  emails = trim <$> split_comma str
  /\ Forall (fun e => test email_regex e = true
                      /\ every_char (fun c => negb (Ascii.eqb c ",")) e) emails.
Proof.
  rewrite EMAIL_TO_transform_inv.
  destruct (forallb _ _) eqn:Hall; [|discriminate]. intros [= <-].
  split; [done|]. rewrite forallb_forall in Hall.
  apply Forall_fmap, Forall_forall. intros piece Hpiece. simpl. split.
  - apply Hall. apply list_elem_of_In. by apply list_elem_of_fmap_2.
  - pose proof (split_comma_pieces str) as Hpieces.
    rewrite Forall_forall in Hpieces. by apply trim_chars, Hpieces.
Qed.

Lemma EMAIL_TO_transform_total str :
  (exists emails, EMAIL_TO_transform str = Normal emails)
  \/ EMAIL_TO_transform str
     = Throw (Error
         "Invalid email list format: must be comma-separated email addresses").
Proof.
  rewrite EMAIL_TO_transform_inv. destruct (forallb _ _); eauto.
Qed.

(** X12.  Every address of a validated [EMAIL_TO] is free of white space
    and commas and holds exactly one [@]. *)
Theorem validated_addresses_are_clean str emails :
  EMAIL_TO_transform str = Normal emails ->
  Forall (fun e =>
            every_char (fun c => negb (is_whitespace c)
                                 && negb (Ascii.eqb c ",")) e
            /\ count_occ Ascii.ascii_dec (list_ascii_of_string e) "@"%char
               = 1%nat) emails.
Proof.
  intros Hok. destruct (EMAIL_TO_transform_entries _ _ Hok) as [_ Hall].
  eapply Forall_impl; [exact Hall|]. intros e [Htest Hcomma]. split.
  - pose proof (email_has_no_whitespace _ Htest) as Hws.
    intros c Hin. by rewrite (Hws c Hin), (Hcomma c Hin).
  - apply email_regex_shape in Htest
      as (u & v & w & -> & _ & _ & _ & Hu & Hv & Hw).
    rewrite !list_ascii_of_string_app, !count_occ_app.
    rewrite (count_at_zero u Hu), (count_at_zero v Hv), (count_at_zero w Hw).
    reflexivity.
Qed.

(** X13.  Every address of a validated [EMAIL_TO] is by itself a valid
    [EMAIL_TO] value, which validates to the list of just that address. *)
Theorem validated_address_validates_alone str emails :
  EMAIL_TO_transform str = Normal emails ->
  Forall (fun e => EMAIL_TO_transform e = Normal [e]) emails.
Proof.
  intros Hok. destruct (EMAIL_TO_transform_entries _ _ Hok) as [_ Hall].
  eapply Forall_impl; [exact Hall|]. intros e [Htest Hcomma]. simpl.
  rewrite EMAIL_TO_transform_inv, (split_comma_whole _ Hcomma).
  simpl. rewrite (trim_whole e (email_has_no_whitespace _ Htest)).
  simpl. by rewrite Htest.
Qed.

(** X14.  Joining two values with a comma validates exactly when both
    validate, and then yields the two lists one after the other. *)
Theorem comma_joins_validated_lists s1 s2 emails :
  EMAIL_TO_transform (s1 ++ "," ++ s2) = Normal emails
  <-> exists emails1 emails2,
        EMAIL_TO_transform s1 = Normal emails1
        /\ EMAIL_TO_transform s2 = Normal emails2
        /\ emails = (emails1 ++ emails2)%list.
Proof.
  rewrite !EMAIL_TO_transform_inv, split_comma_app, fmap_app, forallb_app.
  destruct (forallb (test email_regex) (trim <$> split_comma s1)),
           (forallb (test email_regex) (trim <$> split_comma s2)); simpl.
  - split.
    + intros [= <-]. eauto.
    + intros (e1 & e2 & [= <-] & [= <-] & ->). done.
  - split; [discriminate|]. intros (e1 & e2 & _ & Hno & _). discriminate.
  - split; [discriminate|]. intros (e1 & e2 & Hno & _). discriminate.
  - split; [discriminate|]. intros (e1 & e2 & Hno & _). discriminate.
Qed.

Lemma EMAIL_TO_transform_rejects str piece :
  piece ∈ split_comma str ->
  test email_regex (trim piece) = false ->
  EMAIL_TO_transform str
  = Throw (Error
      "Invalid email list format: must be comma-separated email addresses").
Proof.
  intros Hin Hbad. rewrite EMAIL_TO_transform_inv.
  destruct (forallb _ _) eqn:Hall; [|done].
  rewrite forallb_forall in Hall.
  rewrite Hall in Hbad; [done|].
  apply list_elem_of_In. by apply list_elem_of_fmap_2.
Qed.

(** X15.  An empty entry is fatal: a value with a trailing comma, with a
    leading comma or with two commas in a row is rejected with the format
    error. *)
Theorem empty_entries_are_rejected s1 s2 :
  EMAIL_TO_transform (s1 ++ ",")
  = Throw (Error
      "Invalid email list format: must be comma-separated email addresses")
  /\ EMAIL_TO_transform ("," ++ s2)
     = Throw (Error
         "Invalid email list format: must be comma-separated email addresses")
  /\ EMAIL_TO_transform (s1 ++ ",," ++ s2)
     = Throw (Error
         "Invalid email list format: must be comma-separated email addresses").
Proof.
  split; [|split]; apply (EMAIL_TO_transform_rejects _ EmptyString); try done.
  - change (s1 ++ ",") with (s1 ++ "," ++ EmptyString).
    rewrite split_comma_app. apply elem_of_app. right. by left.
  - change ("," ++ s2) with (EmptyString ++ "," ++ s2).
    rewrite split_comma_app. by left.
  - change (s1 ++ ",," ++ s2) with (s1 ++ "," ++ (EmptyString ++ "," ++ s2)).
    rewrite !split_comma_app. apply elem_of_app. right. by left.
Qed.

Section SchemaMore.

Variable zod_email : string -> bool.
Variable Number_of : option string -> float.

(** X16.  There is no default for any of the six variables: when
    [Number] of an absent value is not a number, as in JavaScript, a
    missing variable makes the parse throw. *)
Theorem missing_variable_is_fatal (env : gmap string string) key :
  PrimFloat.is_nan (Number_of None) = true ->
  key ∈ ["EMAIL_TO"; "EMAIL_FROM"; "EMAIL_HOST"; "EMAIL_PORT"; "EMAIL_USER";
         "EMAIL_PASSWORD"] ->
  env !! key = None ->
  throws (envSchema_parse zod_email Number_of env).
Proof.
  intros Hnan Hkey Hmissing. unfold envSchema_parse, z_string.
  destruct (env !! "EMAIL_TO") as [raw|] eqn:Hto.
  - destruct (EMAIL_TO_transform raw) as [emails|e]; [|by exists e].
    simpl.
    repeat (apply elem_of_cons in Hkey as [->|Hkey]); [congruence|..].
    + rewrite Hmissing. simpl. eexists. reflexivity.
    + rewrite Hmissing. destruct (z_string_email _ _); eexists; reflexivity.
    + rewrite Hmissing. unfold z_coerce_number_min0. rewrite Hnan.
      destruct (z_string_email _ _), (env !! "EMAIL_HOST");
        eexists; reflexivity.
    + rewrite Hmissing. simpl.
      destruct (z_string_email _ _), (env !! "EMAIL_HOST"),
        (z_coerce_number_min0 _ _); eexists; reflexivity.
    + rewrite Hmissing.
      destruct (z_string_email _ _), (env !! "EMAIL_HOST"),
        (z_coerce_number_min0 _ _), (z_string_email _ _); eexists; reflexivity.
    + by apply elem_of_nil in Hkey.
  - simpl. eexists. reflexivity.
Qed.

(** X17.  The parse returns a configuration exactly when [EMAIL_TO]
    validates to its recipient list, the other string fields are the
    values of their variables, sender and user pass the e-mail check, and
    the port is the number read from [EMAIL_PORT], not NaN and not below
    0. *)
Theorem parsed_config_comes_from_environment (env : gmap string string) config :
  envSchema_parse zod_email Number_of env = Normal config
  <-> (exists raw, env !! "EMAIL_TO" = Some raw
                   /\ EMAIL_TO_transform raw = Normal (EMAIL_TO config))
      /\ env !! "EMAIL_FROM" = Some (EMAIL_FROM config)
      /\ zod_email (EMAIL_FROM config) = true
      /\ env !! "EMAIL_HOST" = Some (EMAIL_HOST config)
      /\ EMAIL_PORT config = Number_of (env !! "EMAIL_PORT")
      /\ PrimFloat.is_nan (EMAIL_PORT config) = false
      /\ PrimFloat.leb 0%float (EMAIL_PORT config) = true
      /\ env !! "EMAIL_USER" = Some (EMAIL_USER config)
      /\ zod_email (EMAIL_USER config) = true
      /\ env !! "EMAIL_PASSWORD" = Some (EMAIL_PASSWORD config).
Proof.
  unfold envSchema_parse, z_string, z_string_email, z_coerce_number_min0. split.
  - intros Hparse.
    destruct (env !! "EMAIL_TO") as [raw|]; [|simpl in Hparse; discriminate].
    destruct (EMAIL_TO_transform raw) as [emails|] eqn:Hto; [|discriminate].
    simpl in Hparse.
    destruct (env !! "EMAIL_FROM") as [from|]; [|discriminate].
    destruct (zod_email from) eqn:Hfrom; [|discriminate].
    destruct (env !! "EMAIL_HOST") as [host|]; [|discriminate].
    destruct (PrimFloat.is_nan (Number_of (env !! "EMAIL_PORT"))) eqn:Hnan;
      [discriminate|].
    destruct (PrimFloat.leb 0 (Number_of (env !! "EMAIL_PORT"))) eqn:Hge;
      [|discriminate].
    destruct (env !! "EMAIL_USER") as [user|]; [|discriminate].
    destruct (zod_email user) eqn:Huser; [|discriminate].
    destruct (env !! "EMAIL_PASSWORD") as [password|]; [|discriminate].
    injection Hparse as <-. simpl. split; [eauto|]. repeat split; done.
  - intros ((raw & Hraw & Hto) & Hfrom & Hfrom_ok & Hhost & Hport & Hnan & Hge
            & Huser & Huser_ok & Hpassword).
    rewrite Hraw, Hto, Hfrom, Hfrom_ok, Hhost, <- Hport, Hnan, Hge, Huser,
      Huser_ok, Hpassword.
    simpl. by destruct config.
Qed.

(** X18.  The parse reads the six variables and no other: setting or
    removing any other variable does not change its result. *)
Theorem other_variables_are_ignored (env : gmap string string) key value :
  key ∉ ["EMAIL_TO"; "EMAIL_FROM"; "EMAIL_HOST"; "EMAIL_PORT"; "EMAIL_USER";
         "EMAIL_PASSWORD"] ->
  envSchema_parse zod_email Number_of (<[key := value]> env)
  = envSchema_parse zod_email Number_of env
  /\ envSchema_parse zod_email Number_of (delete key env)
     = envSchema_parse zod_email Number_of env.
Proof.
  intros Hkey.
  assert (Hne : forall name,
            name ∈ ["EMAIL_TO"; "EMAIL_FROM"; "EMAIL_HOST"; "EMAIL_PORT";
                    "EMAIL_USER"; "EMAIL_PASSWORD"] -> key <> name)
    by (intros name Hin ->; done).
  unfold envSchema_parse.
  split.
  - rewrite !lookup_insert_ne by (apply Hne; repeat constructor). done.
  - rewrite !lookup_delete_ne by (apply Hne; repeat constructor). done.
Qed.

End SchemaMore.

(** * The further properties on the example deployment *)

Lemma run_from_new_logger_witness :
  exists this' sent,
    run (runtime := delivers_more) solo_config
        (AppLogger_new {| opt_name := "svc";
                          opt_dailyErrorCacheTimeMs := Some 60000 |})
        tt [ErrorEvent disk_full t0; ErrorEvent db_down (t0 + 5);
            ErrorEvent disk_full_later (t0 + 1000)]
    = Normal (this', tt, sent)
    /\ name this' = "svc"
    /\ forall s e, dailyErrorCache this' !! s = Some e -> 0 <= count e <= 3.
Proof.
  destruct (run (runtime := delivers_more) solo_config
              (AppLogger_new {| opt_name := "svc";
                                opt_dailyErrorCacheTimeMs := Some 60000 |})
              tt [ErrorEvent disk_full t0; ErrorEvent db_down (t0 + 5);
                  ErrorEvent disk_full_later (t0 + 1000)])
    as [[[this' []] sent]|] eqn:Hrun; [|vm_compute in Hrun; discriminate].
  exists this', sent. split; [reflexivity|].
  destruct (run_from_new_logger (runtime := delivers_more) _ _ _ _ _ _ _ Hrun)
    as (Hname & _ & _ & Hentries).
  split; [exact Hname|]. intros s e Hse. by destruct (Hentries s e Hse).
Defined.

Lemma batch_accounting_witness :
  (dailyErrorCacheTimeMs minute_logger > 0
   /\ EMAIL_TO solo_config <> []
   /\ Forall (fun arrival =>
               cacheKey_of (runtime := delivers_more) arrival.1
               = Normal "error: disk full")
             [(disk_full, t0); (disk_full_later, t0 + 1000);
              (disk_full, t0 + 70000)])
  /\ exists this' tr' sent,
       run (runtime := delivers_more) solo_config minute_logger tt
           (error_events [(disk_full, t0); (disk_full_later, t0 + 1000);
                          (disk_full, t0 + 70000)])
       = Normal (this', tr', sent)
       /\ subject <$> attempts sent
          = ["svc Error (1 occurrences in past 1 minutes)";
             "svc Error (2 occurrences in past 1 minutes)"]
       /\ 1 + 2 + count (get_or_fresh (dailyErrorCache this') "error: disk full")
          = 3.
Proof.
  assert (Hwin : dailyErrorCacheTimeMs minute_logger > 0) by reflexivity.
  assert (Hto : EMAIL_TO solo_config <> []) by discriminate.
  assert (Hkeys : Forall (fun arrival =>
            cacheKey_of (runtime := delivers_more) arrival.1
            = Normal "error: disk full")
         [(disk_full, t0); (disk_full_later, t0 + 1000); (disk_full, t0 + 70000)])
    by (repeat constructor).
  split; [split; [exact Hwin|split; [exact Hto|exact Hkeys]]|].
  destruct (batch_accounting (runtime := delivers_more) solo_config _
              minute_logger tt _ Hwin Hto Hkeys)
    as (this' & tr' & sent & reports & Hrun & Hatt & Hpinned & Hsum).
  exists this', tr', sent.
  assert (Hsent : attempts sent
                  = mjoin ((fun report : Z * string =>
                      letter_to solo_config
                        (name minute_logger ++ " Error (" ++ pretty report.1
                         ++ " occurrences in past "
                         ++ pretty (dailyErrorCacheTimeMinutes minute_logger)
                         ++ " minutes)")
                        report.2 <$> EMAIL_TO solo_config)
                     <$> [(1, disk_full); (2, disk_full)])).
  { pose proof Hrun as Hsent. vm_compute in Hsent.
    injection Hsent as _ _ <-. vm_compute. reflexivity. }
  rewrite <- (Hpinned _ Hsent) in Hsum.
  split; [exact Hrun|]. split; [rewrite Hsent; vm_compute; reflexivity|].
  change (count (get_or_fresh (dailyErrorCache minute_logger) "error: disk full"))
    with 0 in Hsum.
  simpl in Hsum. lia.
Defined.

Lemma run_within_span_sends_once_witness :
  (Forall (fun arrival =>
             cacheKey_of (runtime := delivers_all) arrival.1
             = Normal "error: disk full")
          [(disk_full, t0); (disk_full, t0 + 59999)]
   /\ forall a b,
        a ∈ [(disk_full, t0); (disk_full, t0 + 59999)] ->
        b ∈ [(disk_full, t0); (disk_full, t0 + 59999)] ->
        b.2 - a.2 < dailyErrorCacheTimeMs minute_logger)
  /\ exists this' tr' sent,
       run (runtime := delivers_all) ops_config minute_logger tt
           (error_events [(disk_full, t0); (disk_full, t0 + 59999)])
       = Normal (this', tr', sent)
       /\ (length sent <= 3)%nat.
Proof.
  assert (Hkeys : Forall (fun arrival =>
             cacheKey_of (runtime := delivers_all) arrival.1
             = Normal "error: disk full")
          [(disk_full, t0); (disk_full, t0 + 59999)]) by (repeat constructor).
  assert (Hspan : forall a b,
        a ∈ [(disk_full, t0); (disk_full, t0 + 59999)] ->
        b ∈ [(disk_full, t0); (disk_full, t0 + 59999)] ->
        b.2 - a.2 < dailyErrorCacheTimeMs minute_logger).
  { intros a b Ha Hb.
    repeat (apply elem_of_cons in Ha as [->|Ha]);
      repeat (apply elem_of_cons in Hb as [->|Hb]);
      try (by apply elem_of_nil in Ha); try (by apply elem_of_nil in Hb);
      reflexivity. }
  split; [by split|].
  destruct (run_within_span_sends_once (runtime := delivers_all) ops_config _
              minute_logger tt _ Hkeys Hspan)
    as (this' & tr' & sent & Hrun & _ & Hlen).
  exists this', tr', sent. split; [exact Hrun|exact Hlen].
Defined.

Lemma run_other_signatures_witness :
  Forall (fun arrival =>
            cacheKey_of (runtime := delivers_more) arrival.1
            <> Normal "error: disk full")
         [(db_down, t0 + 1); (db_down, t0 + 2)]
  /\ exists this' sent,
       run (runtime := delivers_more) solo_config alerted_logger tt
           (error_events [(db_down, t0 + 1); (db_down, t0 + 2)])
       = Normal (this', tt, sent)
       /\ dailyErrorCache this' !! "error: disk full"
          = Some {| count := 0; lastSent := t0 |}.
Proof.
  assert (Hkeys : Forall (fun arrival =>
            cacheKey_of (runtime := delivers_more) arrival.1
            <> Normal "error: disk full")
         [(db_down, t0 + 1); (db_down, t0 + 2)])
    by (repeat constructor; discriminate).
  split; [exact Hkeys|].
  destruct (run (runtime := delivers_more) solo_config alerted_logger tt
              (error_events [(db_down, t0 + 1); (db_down, t0 + 2)]))
    as [[[this' []] sent]|] eqn:Hrun; [|vm_compute in Hrun; discriminate].
  exists this', sent. split; [reflexivity|].
  by rewrite (run_other_signatures (runtime := delivers_more) solo_config _ _ _ _
                _ _ _ Hkeys Hrun).
Defined.

Lemma different_signatures_commute_witness :
  (cacheKey_of (runtime := delivers_more) disk_full = Normal "error: disk full"
   /\ cacheKey_of (runtime := delivers_more) db_down = Normal "error: db down"
   /\ "error: disk full" <> "error: db down")
  /\ exists this12 tr12 sent12 this21 tr21 sent21,
       run (runtime := delivers_more) solo_config minute_logger tt
           [ErrorEvent disk_full t0; ErrorEvent db_down t0]
       = Normal (this12, tr12, sent12)
       /\ run (runtime := delivers_more) solo_config minute_logger tt
              [ErrorEvent db_down t0; ErrorEvent disk_full t0]
          = Normal (this21, tr21, sent21)
       /\ this12 = this21.
Proof.
  assert (Hne : "error: disk full" <> "error: db down") by discriminate.
  split; [split; [reflexivity|split; [reflexivity|exact Hne]]|].
  destruct (different_signatures_commute (runtime := delivers_more) solo_config
              minute_logger tt disk_full t0 db_down t0 _ _ eq_refl eq_refl Hne)
    as (this12 & tr12 & sent12 & this21 & tr21 & sent21 & H12 & H21 & Heq & _).
  exists this12, tr12, sent12, this21, tr21, sent21. by repeat split.
Defined.

Lemma null_record_throws_witness :
  JSON_parse (Runtime := delivers_more) null_text = Normal JNull
  /\ write (runtime := delivers_more) solo_config minute_logger tt null_text t0
     = Throw TypeError.
Proof.
  split; [reflexivity|].
  by apply (null_record_throws (runtime := delivers_more)).
Defined.

Lemma same_level_key_injective_witness :
  cacheKey_of (runtime := delivers_more) disk_full
  <> cacheKey_of (runtime := delivers_more) db_down.
Proof.
  intros Heq.
  apply (same_level_key_injective (runtime := delivers_more)
           disk_full db_down _ _ "error" "disk full" "db down"
           eq_refl eq_refl eq_refl eq_refl eq_refl eq_refl) in Heq.
  discriminate.
Defined.

Lemma other_members_do_not_change_key_witness :
  cacheKey_of (runtime := delivers_more) disk_full
  = cacheKey_of (runtime := delivers_more) disk_full_later.
Proof.
  apply (other_members_do_not_change_key (runtime := delivers_more)
           disk_full disk_full_later
           [("level", JString "error"); ("message", JString "disk full")]
           [("timestamp", JString "2024-05-01 10:00:00")]
           [("timestamp", JString "2024-05-01 10:00:01")] []);
    try reflexivity; repeat constructor; discriminate.
Defined.

Lemma validated_addresses_are_clean_witness :
  EMAIL_TO_transform " ops@example.com , dev@example.com"
  = Normal ["ops@example.com"; "dev@example.com"]
  /\ Forall (fun e =>
               every_char (fun c => negb (is_whitespace c)
                                    && negb (Ascii.eqb c ",")) e
               /\ count_occ Ascii.ascii_dec (list_ascii_of_string e) "@"%char
                  = 1%nat)
            ["ops@example.com"; "dev@example.com"].
Proof.
  split; [reflexivity|].
  by apply (validated_addresses_are_clean " ops@example.com , dev@example.com").
Defined.

Lemma validated_address_validates_alone_witness :
  EMAIL_TO_transform " ops@example.com , dev@example.com"
  = Normal ["ops@example.com"; "dev@example.com"]
  /\ Forall (fun e => EMAIL_TO_transform e = Normal [e])
            ["ops@example.com"; "dev@example.com"].
Proof.
  split; [reflexivity|].
  by apply (validated_address_validates_alone
              " ops@example.com , dev@example.com").
Defined.

Lemma missing_variable_is_fatal_witness :
  (PrimFloat.is_nan (Number_of_examples None) = true
   /\ ("EMAIL_HOST" ∈ ["EMAIL_TO"; "EMAIL_FROM"; "EMAIL_HOST"; "EMAIL_PORT";
                       "EMAIL_USER"; "EMAIL_PASSWORD"])
   /\ delete "EMAIL_HOST" ops_env !! "EMAIL_HOST" = None)
  /\ throws (envSchema_parse zod_email_examples Number_of_examples
               (delete "EMAIL_HOST" ops_env)).
Proof.
  assert (Hin : "EMAIL_HOST" ∈ ["EMAIL_TO"; "EMAIL_FROM"; "EMAIL_HOST";
                                "EMAIL_PORT"; "EMAIL_USER"; "EMAIL_PASSWORD"])
    by (repeat constructor).
  assert (Hgone : delete "EMAIL_HOST" ops_env !! "EMAIL_HOST" = None)
    by apply lookup_delete_eq.
  split; [split; [reflexivity|split; [exact Hin|exact Hgone]]|].
  exact (missing_variable_is_fatal zod_email_examples Number_of_examples
           (delete "EMAIL_HOST" ops_env) "EMAIL_HOST" eq_refl Hin Hgone).
Defined.

Lemma other_variables_are_ignored_witness :
  ("PATH" ∉ ["EMAIL_TO"; "EMAIL_FROM"; "EMAIL_HOST"; "EMAIL_PORT"; "EMAIL_USER";
             "EMAIL_PASSWORD"])
  /\ envSchema_parse zod_email_examples Number_of_examples
       (<["PATH" := "/usr/bin"]> ops_env)
     = envSchema_parse zod_email_examples Number_of_examples ops_env.
Proof.
  assert (Hout : "PATH" ∉ ["EMAIL_TO"; "EMAIL_FROM"; "EMAIL_HOST"; "EMAIL_PORT";
                           "EMAIL_USER"; "EMAIL_PASSWORD"]).
  { intros Hin.
    repeat (apply elem_of_cons in Hin as [Hin|Hin]; [discriminate|]).
    by apply elem_of_nil in Hin. }
  split; [exact Hout|].
  apply (other_variables_are_ignored zod_email_examples Number_of_examples
           ops_env "PATH" "/usr/bin" Hout).
Defined.

Lemma alerts_take_more_than_their_windows_witness :
  Forall (fun arrival =>
            cacheKey_of (runtime := delivers_all) arrival.1
            = Normal "error: disk full"
            /\ arrival.2 <= t0 + 200000)
         [(disk_full, t0 + 70000); (disk_full, t0 + 100000);
          (disk_full, t0 + 200000)]
  /\ exists this' tr' sent (alerts : nat),
       run (runtime := delivers_all) solo_config alerted_logger tt
           (error_events [(disk_full, t0 + 70000); (disk_full, t0 + 100000);
                          (disk_full, t0 + 200000)])
       = Normal (this', tr', sent)
       /\ length sent = (alerts * 1)%nat
       /\ ((1 <= alerts)%nat -> Z.of_nat alerts * 60000 < 200000).
Proof.
  assert (Hall : Forall (fun arrival =>
            cacheKey_of (runtime := delivers_all) arrival.1
            = Normal "error: disk full"
            /\ arrival.2 <= t0 + 200000)
         [(disk_full, t0 + 70000); (disk_full, t0 + 100000);
          (disk_full, t0 + 200000)]).
  { repeat constructor; vm_compute; discriminate. }
  split; [exact Hall|].
  destruct (alerts_take_more_than_their_windows (runtime := delivers_all)
              solo_config _ alerted_logger tt _ _ Hall)
    as (this' & tr' & sent & alerts & Hrun & Hlen & Hgap).
  exists this', tr', sent, alerts. split; [exact Hrun|]. split; [exact Hlen|].
  intros Hone. specialize (Hgap Hone). vm_compute in Hgap |- *. 
  exact Hgap.
Defined.
